(** * The HLS on-demand session manager (package [hls], type [ManagerCtx])

    A shallow embedding of the manager that starts a transcoding
    subprocess on the first playlist request, hands the first ready
    playlist to the waiting request, reclaims idle sessions and removes
    the working directory after a stop.

    The program is concurrent: request handlers, one output reader and
    one idle reaper per generation, and the timers armed by [Stop] all
    act on the same [ManagerCtx].  The embedding is a labelled transition
    system over a [World] that holds the manager, the channels, the
    pipes, the file system, the goroutines and the timers.  One step
    runs one goroutine from one blocking operation (a pipe read, a
    channel operation, a timer) to the next; what the operating system
    or the scheduler decides (the result of [os.MkdirTemp], of
    [cmd.Start], of a pipe read, of [syscall.Getpgid], which receiver a
    send reaches) is carried by the label of the step. *)

From Stdlib Require Import ZArith Lia Bool String Ascii List.
From stdpp Require Import base list strings.
Import ListNotations.

Local Open Scope string_scope.
Local Open Scope list_scope.
Local Open Scope Z_scope.

(** ** Constants of the package *)

(** [time.Duration] counts nanoseconds. *)
Abbreviation Duration := Z (only parsing).
Abbreviation Time := Z (only parsing).

Definition Second : Duration := 1000000000.

(** how often should be cleanup called *)
Definition cleanupPeriod : Duration := 4 * Second.

(** timeout for first playlist, when it waits for new data *)
Definition playlistTimeout : Duration := 20 * Second.

(** minimum segments available to consider stream as active *)
Definition hlsMinimumSegments : Z := 2.

(** how long must be active stream idle to be considered as dead *)
Definition activeIdleTimeout : Duration := 12 * Second.

(** how long must be inactive stream idle to be considered as dead *)
Definition inactiveIdleTimeout : Duration := 24 * Second.

(** the delay of [time.AfterFunc] in [Stop] *)
Definition removeDelay : Duration := 2 * Second.

(** ** Go values *)

(** Go's [int] on a 64-bit platform: two's complement, addition wraps. *)
Definition maxInt : Z := 2 ^ 63 - 1.
Definition minInt : Z := - 2 ^ 63.
Definition wrap_int (z : Z) : Z := (z + 2 ^ 63) mod 2 ^ 64 - 2 ^ 63.
Definition int_add (a b : Z) : Z := wrap_int (a + b).

(** [time.Since(t)] is [time.Now().Sub(t)]; [Sub] saturates at the
    largest and smallest [Duration]. *)
Definition Sub (t u : Time) : Duration := Z.max minInt (Z.min maxInt (t - u)).
Definition Since (now t : Time) : Duration := Sub now t.

(** An [error] value, known by the text its [Error()] method returns. *)
Inductive error := mkError (text : string).
Definition Error (e : error) : string := let 'mkError t := e in t.
Definition errors_New (text : string) : error := mkError text.

Definition ErrAlreadyStarted : error := errors_New "has already started".

(** Channels and pipes are named by the order of their creation. *)
Abbreviation ChanId := nat (only parsing).
Abbreviation PipeId := nat (only parsing).
Abbreviation Pid := Z (only parsing).

(** Where [Start] sends the standard error of the subprocess. *)
Inductive StderrSink := LogEvent | LogWriter.

(** The fields of [exec.Cmd] that the manager sets or reads.  [Process]
    is [nil] until [cmd.Start] has spawned the process. *)
Record Cmd := mkCmd {
  Dir : string;
  Stderr : StderrSink;
  Stdout : PipeId;
  Setpgid : bool;
  Process : option Pid
}.

(** Which of the three optional hooks of [m.events] are set. *)
Record Events := mkEvents {
  onStart : bool;
  onCmdLog : bool;
  onStop : bool
}.

Record ManagerCtx := mkManager {
  active : bool;
  events : Events;
  cmd : option Cmd;
  tempdir : string;
  lastRequest : Time;
  sequence : Z;
  playlist : string;
  playlistLoad : ChanId;
  shutdown : ChanId
}.

(** ** HTTP responses *)

Record Response := mkResponse {
  status : Z;
  header : list (string * string);
  body : string
}.

Definition StatusOK : Z := 200.
Definition StatusNotFound : Z := 404.
Definition StatusInternalServerError : Z := 500.

(** ** Goroutines *)

(** The output reader of one generation: about to read the pipe,
    blocked in [m.playlistLoad <- m.playlist] (the channel and the value
    were evaluated when the send began; [err] is the error of the read
    that led here), or returned. *)
Inductive ReaderPC :=
| RRead
| RSend (c : ChanId) (v : string) (err : option error)
| RExit.

(** The idle reaper of one generation: parked in its [select] on the
    shutdown channel it evaluated on entry and on the ticker, inside
    [Cleanup], or returned. *)
Inductive ReaperPC :=
| Parked (sd : ChanId)
| Running
| Exited.

(** A playlist request: parked in the [select] of [ServePlaylist] with
    its local [playlist], the two channels it evaluated on entry and
    the instant [time.After(playlistTimeout)] fires, or answered. *)
Inductive HandlerPC :=
| HWait (local : string) (pl sd : ChanId) (deadline : Time)
| HDone (r : Response).

(** What one call of [Start] past the directory creation brings to
    life: the pipe ([write_closed] once [write.Close()] ran), its
    reader and its reaper. *)
Record Generation := mkGen {
  write_closed : bool;
  reader : ReaderPC;
  reaper : ReaperPC
}.

(** Signals sent by [Stop]. *)
Inductive Kill :=
| KillGroup (pgid : Pid)     (* syscall.Kill(-pgid, SIGKILL) *)
| KillProcess (pid : Pid).   (* m.cmd.Process.Kill() *)

Inductive Hook := OnStartCalled | OnStopCalled.

Record World := mkWorld {
  m : ManagerCtx;
  clock : Time;                 (* time.Now() *)
  next_chan : ChanId;           (* the name of the next channel made *)
  closed : list ChanId;         (* the channels that are closed *)
  gens : list Generation;       (* pipe id -> generation *)
  fs : list string;             (* the paths that exist *)
  kills : list Kill;
  requests : list HandlerPC;
  timers : list Time;           (* pending AfterFunc timers of Stop *)
  hook_log : list Hook;
  panicked : bool               (* a runtime panic was raised *)
}.

(** [panicked] only records that some goroutine panicked (a close of a
    closed channel, a send on a closed channel).  Whether the program
    goes on depends on the caller, [net/http] recovers the panic of a
    handler, so the steps below stay enabled after a panic and what is
    proved about every reachable world covers both cases. *)

(** *** Field updates *)

Definition set_m (f : ManagerCtx -> ManagerCtx) (w : World) : World :=
  mkWorld (f (m w)) (clock w) (next_chan w) (closed w) (gens w) (fs w) (kills w)
          (requests w) (timers w) (hook_log w) (panicked w).
Definition set_clock (t : Time) (w : World) : World :=
  mkWorld (m w) t (next_chan w) (closed w) (gens w) (fs w) (kills w)
          (requests w) (timers w) (hook_log w) (panicked w).
Definition set_next_chan (c : ChanId) (w : World) : World :=
  mkWorld (m w) (clock w) c (closed w) (gens w) (fs w) (kills w)
          (requests w) (timers w) (hook_log w) (panicked w).
Definition set_closed (f : list ChanId -> list ChanId) (w : World) : World :=
  mkWorld (m w) (clock w) (next_chan w) (f (closed w)) (gens w) (fs w) (kills w)
          (requests w) (timers w) (hook_log w) (panicked w).
Definition set_gens (f : list Generation -> list Generation) (w : World) : World :=
  mkWorld (m w) (clock w) (next_chan w) (closed w) (f (gens w)) (fs w) (kills w)
          (requests w) (timers w) (hook_log w) (panicked w).
Definition set_fs (f : list string -> list string) (w : World) : World :=
  mkWorld (m w) (clock w) (next_chan w) (closed w) (gens w) (f (fs w)) (kills w)
          (requests w) (timers w) (hook_log w) (panicked w).
Definition set_kills (f : list Kill -> list Kill) (w : World) : World :=
  mkWorld (m w) (clock w) (next_chan w) (closed w) (gens w) (fs w) (f (kills w))
          (requests w) (timers w) (hook_log w) (panicked w).
Definition set_requests (f : list HandlerPC -> list HandlerPC) (w : World) : World :=
  mkWorld (m w) (clock w) (next_chan w) (closed w) (gens w) (fs w) (kills w)
          (f (requests w)) (timers w) (hook_log w) (panicked w).
Definition set_timers (f : list Time -> list Time) (w : World) : World :=
  mkWorld (m w) (clock w) (next_chan w) (closed w) (gens w) (fs w) (kills w)
          (requests w) (f (timers w)) (hook_log w) (panicked w).
Definition set_hook_log (f : list Hook -> list Hook) (w : World) : World :=
  mkWorld (m w) (clock w) (next_chan w) (closed w) (gens w) (fs w) (kills w)
          (requests w) (timers w) (f (hook_log w)) (panicked w).
Definition raise_panic (w : World) : World :=
  mkWorld (m w) (clock w) (next_chan w) (closed w) (gens w) (fs w) (kills w)
          (requests w) (timers w) (hook_log w) true.

Definition set_active (b : bool) (x : ManagerCtx) : ManagerCtx :=
  mkManager b (events x) (cmd x) (tempdir x) (lastRequest x) (sequence x)
            (playlist x) (playlistLoad x) (shutdown x).
Definition set_cmd (c : option Cmd) (x : ManagerCtx) : ManagerCtx :=
  mkManager (active x) (events x) c (tempdir x) (lastRequest x) (sequence x)
            (playlist x) (playlistLoad x) (shutdown x).
Definition set_tempdir (d : string) (x : ManagerCtx) : ManagerCtx :=
  mkManager (active x) (events x) (cmd x) d (lastRequest x) (sequence x)
            (playlist x) (playlistLoad x) (shutdown x).
Definition set_lastRequest (t : Time) (x : ManagerCtx) : ManagerCtx :=
  mkManager (active x) (events x) (cmd x) (tempdir x) t (sequence x)
            (playlist x) (playlistLoad x) (shutdown x).
Definition set_sequence (n : Z) (x : ManagerCtx) : ManagerCtx :=
  mkManager (active x) (events x) (cmd x) (tempdir x) (lastRequest x) n
            (playlist x) (playlistLoad x) (shutdown x).
Definition set_playlist (p : string) (x : ManagerCtx) : ManagerCtx :=
  mkManager (active x) (events x) (cmd x) (tempdir x) (lastRequest x) (sequence x)
            p (playlistLoad x) (shutdown x).
Definition set_playlistLoad (c : ChanId) (x : ManagerCtx) : ManagerCtx :=
  mkManager (active x) (events x) (cmd x) (tempdir x) (lastRequest x) (sequence x)
            (playlist x) c (shutdown x).
Definition set_shutdown (c : ChanId) (x : ManagerCtx) : ManagerCtx :=
  mkManager (active x) (events x) (cmd x) (tempdir x) (lastRequest x) (sequence x)
            (playlist x) (playlistLoad x) c.
Definition set_events (e : Events) (x : ManagerCtx) : ManagerCtx :=
  mkManager (active x) e (cmd x) (tempdir x) (lastRequest x) (sequence x)
            (playlist x) (playlistLoad x) (shutdown x).

Definition set_reader (pc : ReaderPC) (g : Generation) : Generation :=
  mkGen (write_closed g) pc (reaper g).
Definition set_reaper (pc : ReaperPC) (g : Generation) : Generation :=
  mkGen (write_closed g) (reader g) pc.
Definition close_write (g : Generation) : Generation :=
  mkGen true (reader g) (reaper g).

(** ** Channels *)

(** [make(chan T)]: a fresh, open, unbuffered channel. *)
Definition make_chan (w : World) : World * ChanId :=
  (set_next_chan (S (next_chan w)) w, next_chan w).

Definition is_closed (c : ChanId) (w : World) : bool :=
  existsb (Nat.eqb c) (closed w).

(** The three ways out of the [select] of [ServePlaylist]. *)
Inductive Resume :=
| RecvPlaylist (v : string)   (* case playlist = <-m.playlistLoad *)
| RecvShutdown                (* case <-m.shutdown *)
| RecvTimeout.                (* case <-time.After(playlistTimeout) *)

(** The tail of [ServePlaylist]: the two headers and the playlist as
    body; the status is the implicit 200 of the first [Write]. *)
Definition playlist_response (playlist : string) : Response :=
  mkResponse StatusOK
    [("Content-Type", "application/vnd.apple.mpegurl"); ("Cache-Control", "no-cache")]
    playlist.

(** What [ServePlaylist] answers once its [select] has chosen a case. *)
Definition ServePlaylist_resume (o : Resume) : Response :=
  match o with
  | RecvPlaylist v => playlist_response v
  | RecvShutdown => mkResponse StatusNotFound [] "404 playlist not found"
  | RecvTimeout => mkResponse StatusInternalServerError [] "500 not available"
  end.

(** [close(c)] wakes every goroutine parked on [c]: a receive on a
    closed channel yields the zero value of the element type. *)
Definition wake_request (c : ChanId) (h : HandlerPC) : HandlerPC :=
  match h with
  | HWait _ pl sd _ =>
      if Nat.eqb pl c then HDone (ServePlaylist_resume (RecvPlaylist ""))
      else if Nat.eqb sd c then HDone (ServePlaylist_resume RecvShutdown)
      else h
  | HDone _ => h
  end.

(** The reaper woken by its shutdown channel runs [write.Close()] and
    returns. *)
Definition wake_reaper (c : ChanId) (g : Generation) : Generation :=
  match reaper g with
  | Parked sd => if Nat.eqb sd c then close_write (set_reaper Exited g) else g
  | _ => g
  end.

Definition sender_on (c : ChanId) (g : Generation) : bool :=
  match reader g with
  | RSend c' _ _ => Nat.eqb c' c
  | _ => false
  end.

(** A sender blocked on a channel that is closed under it panics. *)
Definition abort_sender (c : ChanId) (g : Generation) : Generation :=
  if sender_on c g then set_reader RExit g else g.

(** [close(c)] for an open channel [c]. *)
Definition close_chan (c : ChanId) (w : World) : World :=
  let w := set_closed (cons c) w in
  let w := set_requests (fmap (wake_request c)) w in
  let w := if existsb (sender_on c) (gens w)
           then raise_panic (set_gens (fmap (abort_sender c)) w) else w in
  set_gens (fmap (wake_reaper c)) w.

(** ** The operating system, as far as the manager sees it *)

Inductive MkdirResult := MkdirOk (dir : string) | MkdirErr (e : error).
Inductive SpawnResult := SpawnOk (pid : Pid) | SpawnErr (e : error).

Fixpoint has_prefix (p s : string) : bool :=
  match p, s with
  | EmptyString, _ => true
  | String a p', String b s' => Ascii.eqb a b && has_prefix p' s'
  | String _ _, EmptyString => false
  end.

(** [q] is [p] or lies below it. *)
Definition within (p q : string) : bool :=
  String.eqb q p || has_prefix (p +:+ "/") q.

(** [os.RemoveAll(path)]: removes [path] and everything below it; the
    empty path is accepted and nothing is removed. *)
Definition RemoveAll (path : string) (files : list string) : list string :=
  if String.eqb path "" then files
  else List.filter (fun q => negb (within path q)) files.

(** ** Start, Stop, Cleanup *)

(** The result of a call that may panic. *)
Inductive outcome := Return (w : World) | Panic (w : World).

Definition world_of (o : outcome) : World :=
  match o with
  | Return w => w
  | Panic w => raise_panic w
  end.

Definition call_hook (set : bool) (h : Hook) (w : World) : World :=
  if set then set_hook_log (fun l => l ++ [h]) w else w.

Definition Start (mk : MkdirResult) (sp : SpawnResult) (w : World)
  : World * option error :=
  match cmd (m w) with
  | Some _ => (w, Some (errors_New "has already started"))
  | None =>
      match mk with
      | MkdirErr err => (set_m (set_tempdir "") w, Some err)
      | MkdirOk dir =>
          let w := set_fs (fun l => l ++ [dir]) (set_m (set_tempdir dir) w) in
          (* read, write := io.Pipe() *)
          let pipe := length (gens w) in
          let c := mkCmd (tempdir (m w))
                         (if onCmdLog (events (m w)) then LogEvent else LogWriter)
                         pipe true None in
          let w := set_m (set_cmd (Some c)) w in
          let w := set_m (set_active false) w in
          let w := set_m (set_lastRequest (clock w)) w in
          let w := set_m (set_sequence 0) w in
          let w := set_m (set_playlist "") w in
          let '(w, pl) := make_chan w in
          let w := set_m (set_playlistLoad pl) w in
          let '(w, sd) := make_chan w in
          let w := set_m (set_shutdown sd) w in
          (* the two goroutines: the reader blocks in its first Read,
             the reaper in its select *)
          let w := set_gens (fun l => l ++ [mkGen false RRead (Parked (shutdown (m w)))]) w in
          let w := call_hook (onStart (events (m w))) OnStartCalled w in
          (* return m.cmd.Start() *)
          match sp with
          | SpawnOk pid =>
              (set_m (set_cmd (Some (mkCmd (Dir c) (Stderr c) (Stdout c) (Setpgid c) (Some pid)))) w,
               None)
          | SpawnErr err => (w, Some err)
          end
      end
  end.

(** [pg] is what [syscall.Getpgid] answers: the group id, or nothing
    when it fails. *)
Definition Stop (pg : option Pid) (w : World) : outcome :=
  match cmd (m w) with
  | None => Return w
  | Some c =>
      if is_closed (shutdown (m w)) w then Panic w   (* close of closed channel *)
      else
        let w := close_chan (shutdown (m w)) w in
        let w :=
          match Process c with
          | Some pid =>
              let w := match pg with
                       | Some pgid => set_kills (fun l => l ++ [KillGroup pgid]) w
                       | None => set_kills (fun l => l ++ [KillProcess pid]) w
                       end in
              set_m (set_cmd None) w
          | None => w
          end in
        let w := set_timers (fun l => l ++ [clock w + removeDelay]) w in
        Return (call_hook (onStop (events (m w))) OnStopCalled w)
  end.

(** The [stop] that [Cleanup] computes under the lock. *)
Definition cleanup_stop (w : World) : bool :=
  let diff := Since (clock w) (lastRequest (m w)) in
  active (m w) && (activeIdleTimeout <? diff)
  || negb (active (m w)) && (inactiveIdleTimeout <? diff).

Definition Cleanup (pg : option Pid) (w : World) : outcome :=
  let stop := cleanup_stop w in
  if stop then Stop pg w else Return w.

(** ** The output reader *)

(** The end of one turn of the loop: [if err != nil { return }]. *)
Definition after_read (err : option error) : ReaderPC :=
  match err with
  | Some _ => RExit
  | None => RRead
  end.

(** The reader once its send has been received: [close(m.playlistLoad)],
    then the error check. *)
Definition reader_resume (r : PipeId) (err : option error) (w : World) : World :=
  let c := playlistLoad (m w) in
  if is_closed c w
  then raise_panic (set_gens (alter (set_reader RExit) r) w)
  else set_gens (alter (set_reader (after_read err)) r) (close_chan c w).

Definition waits_on (c : ChanId) (h : HandlerPC) : bool :=
  match h with
  | HWait _ pl _ _ => Nat.eqb pl c
  | HDone _ => false
  end.

(** [m.playlistLoad <- m.playlist] by reader [r].  The channel has no
    buffer: the send completes with a receiver that is parked on the
    channel ([to] says which, the scheduler's choice), and blocks when
    there is none. *)
Definition send_playlist (r : PipeId) (err : option error) (to : option nat)
    (w : World) : option World :=
  let c := playlistLoad (m w) in
  let v := playlist (m w) in
  if is_closed c w
  then Some (raise_panic (set_gens (alter (set_reader RExit) r) w))
  else
    match to with
    | Some i =>
        match requests w !! i with
        | Some h =>
            if waits_on c h
            then Some (reader_resume r err
                   (set_requests (<[i := HDone (ServePlaylist_resume (RecvPlaylist v))]>) w))
            else None
        | None => None
        end
    | None =>
        if existsb (waits_on c) (requests w) then None
        else Some (set_gens (alter (set_reader (RSend c v err)) r) w)
    end.

(** What [read.Read(buf)] can return.  [read] is the read side of an
    [io.Pipe] and [buf] holds 1024 bytes: a read returns the bytes of
    one write and no error, or no byte and an error; once the write
    side is closed it returns only the end of the stream. *)
Definition valid_read (g : Generation) (data : string) (err : option error) : bool :=
  (String.length data <=? 1024)%nat
  && match err with
     | Some _ => (String.length data =? 0)%nat
     | None => negb (write_closed g)
     end.

(** One turn of the reader's loop: [read.Read(buf)] returned the bytes
    [data] (so [n] is their number) and [err]. *)
Definition reader_read (r : PipeId) (data : string) (err : option error)
    (to : option nat) (w : World) : option World :=
  match gens w !! r with
  | Some g =>
      match reader g with
      | RRead =>
          if negb (valid_read g data err) then None
          else if negb (String.length data =? 0)%nat then
            let w := set_m (set_playlist data) w in
            let w := set_m (set_sequence (int_add (sequence (m w)) 1)) w in
            if sequence (m w) =? hlsMinimumSegments then
              let w := set_m (set_active true) w in
              send_playlist r err to w
            else Some (set_gens (alter (set_reader (after_read err)) r) w)
          else Some (set_gens (alter (set_reader (after_read err)) r) w)
      | _ => None
      end
  | None => None
  end.

(** ** Playlist requests *)

(** The first reader blocked in a send on [c], with the value it sends
    and the read error it carries. *)
Fixpoint find_sender (c : ChanId) (r : PipeId) (l : list Generation)
  : option (PipeId * string * option error) :=
  match l with
  | [] => None
  | g :: l' =>
      match reader g with
      | RSend c' v err =>
          if Nat.eqb c' c then Some (r, v, err) else find_sender c (S r) l'
      | _ => find_sender c (S r) l'
      end
  end.

(** Entering the [select] of [ServePlaylist].  A case that can proceed
    at once is taken ([prefer_shutdown] settles the choice when both
    channels are ready); otherwise the request parks.  The timer of
    [time.After] has just been armed and is never ready here. *)
Definition select_enter (local : string) (prefer_shutdown : bool) (w : World) : World :=
  let pl := playlistLoad (m w) in
  let sd := shutdown (m w) in
  let sender := find_sender pl 0%nat (gens w) in
  let recv_ready := is_closed pl w || match sender with Some _ => true | None => false end in
  let sd_ready := is_closed sd w in
  if sd_ready && (prefer_shutdown || negb recv_ready) then
    set_requests (fun l => l ++ [HDone (ServePlaylist_resume RecvShutdown)]) w
  else
    match sender with
    | Some (r, v, err) =>
        reader_resume r err
          (set_requests (fun l => l ++ [HDone (ServePlaylist_resume (RecvPlaylist v))]) w)
    | None =>
        if is_closed pl w then
          set_requests (fun l => l ++ [HDone (ServePlaylist_resume (RecvPlaylist ""))]) w
        else
          set_requests (fun l => l ++ [HWait local pl sd (clock w + playlistTimeout)]) w
    end.

(** [ServePlaylist] up to its [select]; the request becomes the last
    entry of [requests], answered or parked. *)
Definition ServePlaylist (mk : MkdirResult) (sp : SpawnResult)
    (prefer_shutdown : bool) (w : World) : World :=
  let w := set_m (set_lastRequest (clock w)) w in
  let playlist := playlist (m w) in
  let '(w, err) :=
    match cmd (m w) with
    | None => Start mk sp w
    | Some _ => (w, None)
    end in
  match err with
  | Some e =>
      set_requests
        (fun l => l ++ [HDone (mkResponse StatusInternalServerError [] (Error e))]) w
  | None =>
      if negb (active (m w)) then select_enter playlist prefer_shutdown w
      else set_requests (fun l => l ++ [HDone (playlist_response playlist)]) w
  end.

(** [case <-time.After(playlistTimeout)] for the parked request [i]. *)
Definition request_timeout (i : nat) (w : World) : option World :=
  match requests w !! i with
  | Some (HWait _ _ _ deadline) =>
      if deadline <=? clock w
      then Some (set_requests (<[i := HDone (ServePlaylist_resume RecvTimeout)]>) w)
      else None
  | _ => None
  end.

(** ** The idle reaper *)

(** [case <-ticker.C: m.Cleanup()] for the parked reaper [j], and its
    return to the [select], where [m.shutdown] is evaluated anew. *)
Definition reaper_tick (j : PipeId) (pg : option Pid) (w : World) : option World :=
  match gens w !! j with
  | Some g =>
      match reaper g with
      | Parked _ =>
          let w := set_gens (alter (set_reaper Running) j) w in
          match Cleanup pg w with
          | Panic w' => Some (raise_panic (set_gens (alter (set_reaper Exited) j) w'))
          | Return w' =>
              let sd := shutdown (m w') in
              if is_closed sd w'
              then Some (set_gens (alter (fun g => close_write (set_reaper Exited g)) j) w')
              else Some (set_gens (alter (set_reaper (Parked sd)) j) w')
          end
      | _ => None
      end
  | None => None
  end.

(** ** The timer of Stop *)

(** The function given to [time.AfterFunc]: [os.RemoveAll(m.tempdir)],
    with [m.tempdir] read when the timer fires. *)
Definition timer_fire (k : nat) (w : World) : option World :=
  match timers w !! k with
  | Some deadline =>
      if deadline <=? clock w
      then Some (set_timers (delete k) (set_fs (RemoveAll (tempdir (m w))) w))
      else None
  | None => None
  end.

(** ** Package path of the Go library: Base, Clean, Join *)

Fixpoint contains_slash (s : string) : bool :=
  match s with
  | EmptyString => false
  | String a s' => Ascii.eqb a "/" || contains_slash s'
  end.

(** [for len(path) > 0 && path[len(path)-1] == '/' { path = path[0 : len(path)-1] }] *)
Fixpoint strip_trailing_slashes (s : string) : string :=
  match s with
  | EmptyString => EmptyString
  | String a s' =>
      let t := strip_trailing_slashes s' in
      if Ascii.eqb a "/" && String.eqb t "" then "" else String a t
  end.

(** [if i := LastIndexByte(path, '/'); i >= 0 { path = path[i+1:] }] *)
Fixpoint after_last_slash (s : string) : string :=
  match s with
  | EmptyString => EmptyString
  | String a s' =>
      if contains_slash s' then after_last_slash s'
      else if Ascii.eqb a "/" then s' else String a s'
  end.

(** [path.Base]: the last element of the path. *)
Definition Base (path : string) : string :=
  if String.eqb path "" then "."
  else
    let path := strip_trailing_slashes path in
    let path := after_last_slash path in
    if String.eqb path "" then "/" else path.

(** [strings.Split(s, "/")] *)
Fixpoint split_slash (s : string) : list string :=
  match s with
  | EmptyString => [""]
  | String a s' =>
      match split_slash s' with
      | e :: rest => if Ascii.eqb a "/" then "" :: e :: rest else String a e :: rest
      | [] => [String a ""]
      end
  end.

(** One path element met by [path.Clean]; [out] holds the elements
    written so far, the last one first.  An empty element and [.] are
    dropped; [..] removes the element before it when there is one that
    is not itself [..], is dropped at the root, and is kept otherwise. *)
Definition clean_elem (rooted : bool) (out : list string) (e : string) : list string :=
  if String.eqb e "" then out
  else if String.eqb e "." then out
  else if String.eqb e ".." then
    match out with
    | top :: rest => if String.eqb top ".." then e :: out else rest
    | [] => if rooted then [] else [e]
    end
  else e :: out.

(** [path.Clean]: the shortest path equivalent to [path] by purely
    lexical processing. *)
Definition Clean (path : string) : string :=
  if String.eqb path "" then "."
  else
    let rooted := has_prefix "/" path in
    let out := rev (fold_left (clean_elem rooted) (split_slash path) []) in
    if rooted then "/" +:+ String.concat "/" out
    else match out with
         | [] => "."
         | _ => String.concat "/" out
         end.

Fixpoint drop_empty (elem : list string) : list string :=
  match elem with
  | e :: l => if String.eqb e "" then drop_empty l else elem
  | [] => []
  end.

(** [path.Join]: joins the elements from the first non-empty one on
    with slashes and cleans the result. *)
Definition Join (elem : list string) : string :=
  match drop_empty elem with
  | [] => ""
  | l => Clean (String.concat "/" l)
  end.

(** ** Media requests *)

Inductive MediaResponse :=
| MediaAnswer (r : Response)
| MediaServeFile (hdr : list (string * string)) (path : string).
    (* http.ServeFile(w, r, path) *)

(** The path [ServeMedia] resolves for a request URI. *)
Definition media_path (x : ManagerCtx) (requestURI : string) : string :=
  let fileName := Base requestURI in
  Join [tempdir x; fileName].

(** [os.Stat(path)] fails with a not-exist error exactly when the path
    is not there. *)
Definition exists_path (path : string) (w : World) : bool :=
  existsb (String.eqb path) (fs w).

Definition ServeMedia (requestURI : string) (w : World) : World * MediaResponse :=
  let path := media_path (m w) requestURI in
  if negb (exists_path path w) then
    (w, MediaAnswer (mkResponse StatusNotFound [] "404 media not found"))
  else
    let w := set_m (set_lastRequest (clock w)) w in
    (w, MediaServeFile
          [("Content-Type", "application/vnd.apple.mpegurl"); ("Cache-Control", "no-cache")]
          path).

(** ** Construction and hooks *)

(** [New]: no subprocess, no hooks, two fresh channels; [now] and
    [files] are the clock and the file system the manager is born into. *)
Definition New (now : Time) (files : list string) : World :=
  mkWorld (mkManager false (mkEvents false false false) None "" 0 0 "" 0%nat 1%nat)
          now 2%nat [] [] files [] [] [] [] false.

Definition OnStart (w : World) : World :=
  set_m (fun x => set_events (mkEvents true (onCmdLog (events x)) (onStop (events x))) x) w.
Definition OnCmdLog (w : World) : World :=
  set_m (fun x => set_events (mkEvents (onStart (events x)) true (onStop (events x))) x) w.
Definition OnStop (w : World) : World :=
  set_m (fun x => set_events (mkEvents (onStart (events x)) (onCmdLog (events x)) true) x) w.

(** ** The transition system *)

Inductive Label :=
| LAdvance (d : Duration)                       (* time passes *)
| LStart (mk : MkdirResult) (sp : SpawnResult)  (* a call of Start *)
| LStop (pg : option Pid)                       (* a call of Stop *)
| LCleanup (pg : option Pid)                    (* a call of Cleanup *)
| LServePlaylist (mk : MkdirResult) (sp : SpawnResult) (prefer_shutdown : bool)
| LTimeout (i : nat)                            (* request i times out *)
| LRead (r : PipeId) (data : string) (err : option error) (to : option nat)
| LTick (j : PipeId) (pg : option Pid)          (* the ticker of reaper j *)
| LTimer (k : nat)                              (* timer k of Stop fires *)
| LServeMedia (requestURI : string)
| LSegment (name : string)                      (* the subprocess writes a file *)
| LOnStart | LOnCmdLog | LOnStop.

(** [os.MkdirTemp] creates a directory that did not exist. *)
Definition valid_mkdir (mk : MkdirResult) (w : World) : bool :=
  match mk with
  | MkdirOk dir => negb (String.eqb dir "") && negb (exists_path dir w)
  | MkdirErr _ => true
  end.

(** The running subprocess creates the file [name] in its directory. *)
Definition write_segment (name : string) (w : World) : option World :=
  match cmd (m w) with
  | Some c =>
      match Process c with
      | Some _ =>
          if String.eqb name "" || contains_slash name then None
          else
            let p := Dir c +:+ "/" +:+ name in
            if exists_path p w then Some w else Some (set_fs (fun l => l ++ [p]) w)
      | None => None
      end
  | None => None
  end.

(** One step; [None] when the label is not enabled in [w]. *)
Definition exec (l : Label) (w : World) : option World :=
  match l with
  | LAdvance d => if 0 <=? d then Some (set_clock (clock w + d) w) else None
  | LStart mk sp => if valid_mkdir mk w then Some (fst (Start mk sp w)) else None
  | LStop pg => Some (world_of (Stop pg w))
  | LCleanup pg => Some (world_of (Cleanup pg w))
  | LServePlaylist mk sp b =>
      if valid_mkdir mk w then Some (ServePlaylist mk sp b w) else None
  | LTimeout i => request_timeout i w
  | LRead r data err to => reader_read r data err to w
  | LTick j pg => reaper_tick j pg w
  | LTimer k => timer_fire k w
  | LServeMedia uri => Some (fst (ServeMedia uri w))
  | LSegment name => write_segment name w
  | LOnStart => Some (OnStart w)
  | LOnCmdLog => Some (OnCmdLog w)
  | LOnStop => Some (OnStop w)
  end.

Fixpoint run (ls : list Label) (w : World) : option World :=
  match ls with
  | [] => Some w
  | l :: ls' =>
      match exec l w with
      | Some w' => run ls' w'
      | None => None
      end
  end.

(** [w'] is reached from [w]. *)
Definition reachable (w w' : World) : Prop := exists ls, run ls w = Some w'.

(** ** Notions used in the statements *)

(** The world [Start] leaves when the directory was created, up to the
    call of [cmd.Start]. *)
Definition started (dir : string) (process : option Pid) (w : World) : World :=
  let c := mkCmd dir (if onCmdLog (events (m w)) then LogEvent else LogWriter)
                 (length (gens w)) true process in
  let pl := next_chan w in
  let sd := S (next_chan w) in
  mkWorld
    (mkManager false (events (m w)) (Some c) dir (clock w) 0 "" pl sd)
    (clock w)
    (S (S (next_chan w))) (closed w)
    (gens w ++ [mkGen false RRead (Parked sd)])
    (fs w ++ [dir])
    (kills w) (requests w) (timers w)
    (if onStart (events (m w)) then hook_log w ++ [OnStartCalled] else hook_log w)
    (panicked w).

(** What [Stop] and [Cleanup] can do to the manager: nothing, or clear
    the handle of a subprocess that has a process object. *)
Definition stop_effect (x x' : ManagerCtx) : Prop :=
  x' = x \/ (x' = set_cmd None x /\ exists c pid, cmd x = Some c /\ Process c = Some pid).

(** The step is a read whose chunk is not empty and takes the counter
    to [hlsMinimumSegments]: the reader runs [m.active = true] and the
    send. *)
Definition activates (l : Label) (w : World) : bool :=
  match l with
  | LRead _ data _ _ =>
      negb (String.length data =? 0)%nat
      && (int_add (sequence (m w)) 1 =? hlsMinimumSegments)
  | _ => false
  end.

(** How many steps of a run mark the session active. *)
Fixpoint activations (ls : list Label) (w : World) : nat :=
  match ls with
  | [] => 0
  | l :: ls' =>
      match exec l w with
      | Some w' => ((if activates l w then 1 else 0) + activations ls' w')%nat
      | None => 0%nat
      end
  end.

(** Why a parked request left its [select] by the case [o]: the handoff
    [pl] has delivered and is closed, the shutdown channel [sd] is
    closed, or the deadline [dl] of the timer has passed. *)
Definition resolved_by (o : Resume) (pl sd : ChanId) (dl : Time) (w : World) : Prop :=
  match o with
  | RecvPlaylist _ => is_closed pl w = true
  | RecvShutdown => is_closed sd w = true
  | RecvTimeout => dl <= clock w
  end.

(** Request [i] is still parked as it was, or has been answered by one
    of the three cases of its [select]. *)
Definition waits_or_answered (local : string) (pl sd : ChanId) (dl : Time)
    (w : World) (i : nat) : Prop :=
  requests w !! i = Some (HWait local pl sd dl)
  \/ exists o, requests w !! i = Some (HDone (ServePlaylist_resume o))
       /\ resolved_by o pl sd dl w.

(** [w'] comes after [w] in the life of the requests: the clock only
    advances, a closed channel stays closed, an answer is final, and a
    parked request stays
    parked or is answered through its [select]. *)
Definition tracks (w w' : World) : Prop :=
  clock w <= clock w'
  /\ (forall c, is_closed c w = true -> is_closed c w' = true)
  /\ (forall i r, requests w !! i = Some (HDone r) -> requests w' !! i = Some (HDone r))
  /\ (forall i local pl sd dl,
        requests w !! i = Some (HWait local pl sd dl) ->
        waits_or_answered local pl sd dl w' i).

(** A reader that has returned stays returned. *)
Definition exited_stay (w w' : World) : Prop :=
  forall r g, gens w !! r = Some g -> reader g = RExit ->
    exists g', gens w' !! r = Some g' /\ reader g' = RExit.

(** The steps that call [Start]: a direct call, and a playlist request
    (which calls it when the session has no subprocess). *)
Definition calls_Start (l : Label) : bool :=
  match l with
  | LStart _ _ | LServePlaylist _ _ _ => true
  | _ => false
  end.

(** C1 as stated, at the read of [data] that takes the counter to the
    minimum: the step marks the session active, some request is
    answered with [data] in it, and the handoff is closed after it. *)
Definition hands_off_at_activation (w : World) (r : PipeId) (data : string)
    (err : option error) : Prop :=
  exists to w' i,
    exec (LRead r data err to) w = Some w'
    /\ active (m w') = true
    /\ requests w !! i <> Some (HDone (playlist_response data))
    /\ requests w' !! i = Some (HDone (playlist_response data))
    /\ is_closed (playlistLoad (m w')) w' = true.

(** The elements [path.Clean] keeps of a rooted path. *)
Definition kept (p : string) : list string :=
  rev (fold_left (clean_elem true) (split_slash p) []).

(** ** Concrete runs and worlds *)

(** The world a run ends in (the start when the run is not enabled). *)
Definition world_after (ls : list Label) (w : World) : World :=
  match run ls w with
  | Some w' => w'
  | None => w
  end.

(** A playlist request starts the session and parks; the transcoder is
    slow; the reaper ticks and finds the session idle for less than
    [inactiveIdleTimeout]; the request times out after
    [playlistTimeout]; then the first revision arrives. *)
Definition slow_start : list Label :=
  [LServePlaylist (MkdirOk "/tmp/go-transcode-hls1") (SpawnOk 4242) false;
   LAdvance cleanupPeriod;
   LTick 0 None;
   LAdvance (playlistTimeout - cleanupPeriod);
   LTick 0 None;
   LTimeout 0;
   LRead 0 "#EXTM3U rev1" None None].

(** A session whose working directory is [/tmp/go-transcode-hls123],
    in a file system that held [/etc] and [/tmp] before. *)
Definition media_world : World :=
  fst (Start (MkdirOk "/tmp/go-transcode-hls123") (SpawnOk 4242)
             (New 0 ["/etc"; "/tmp"])).

(** A session is started, writes a segment and is stopped; one second
    later it is started again, in a new directory, and writes a
    segment; another second later the timer of the stop fires. *)
Definition restart_within_delay : list Label :=
  [LStart (MkdirOk "/tmp/go-transcode-hls1") (SpawnOk 4242);
   LSegment "seg0.ts";
   LStop (Some 4242);
   LAdvance Second;
   LStart (MkdirOk "/tmp/go-transcode-hls2") (SpawnOk 4343);
   LSegment "seg0.ts";
   LAdvance Second;
   LTimer 0].

(** One request has started the session and is parked; the first
    revision has been read. *)
Definition parked_world : World :=
  Eval vm_compute in
    world_after
      [LServePlaylist (MkdirOk "/tmp/go-transcode-hls1") (SpawnOk 4242) false;
       LRead 0 "#EXTM3U rev1" None None]
      (New 0 []).

(** The same with a second request parked. *)
Definition two_parked_world : World :=
  Eval vm_compute in
    world_after
      [LServePlaylist (MkdirOk "/tmp/go-transcode-hls1") (SpawnOk 4242) false;
       LServePlaylist (MkdirErr (mkError "unused")) (SpawnOk 0) false;
       LRead 0 "#EXTM3U rev1" None None]
      (New 0 []).

(** The second revision has been read and handed to the request. *)
Definition active_world : World :=
  Eval vm_compute in
    world_after [LRead 0 "#EXTM3U rev2" None (Some 0%nat)] parked_world.

(** Thirteen seconds later, with no request in between. *)
Definition idle_world : World :=
  Eval vm_compute in world_after [LAdvance (13 * Second)] active_world.

(** The active session after its subprocess wrote a segment. *)
Definition segment_world : World :=
  Eval vm_compute in world_after [LSegment "seg0.ts"] active_world.

(** * Properties *)

(** ** Basic facts about the building blocks *)

Lemma length_zero_empty (s : string) : (String.length s =? 0)%nat = true <-> s = "".
Proof.
  destruct s; simpl; split; intros H; try reflexivity; discriminate.
Qed.

Lemma wrap_int_id (z : Z) : minInt <= z <= maxInt -> wrap_int z = z.
Proof.
  unfold wrap_int, minInt, maxInt. intros H.
  rewrite Z.mod_small; lia.
Qed.

Lemma Since_exceeds (now t limit : Z) :
  0 <= limit < maxInt -> (limit <? Since now t) = (limit <? now - t).
Proof.
  unfold Since, Sub, minInt, maxInt. intros H.
  destruct (Z.ltb_spec limit (now - t)), (Z.ltb_spec limit (Z.max (- 2 ^ 63) (Z.min (2 ^ 63 - 1) (now - t))));
    try reflexivity; lia.
Qed.

Arguments close_chan : simpl never.
Arguments is_closed : simpl never.

Lemma m_close_chan c w : m (close_chan c w) = m w.
Proof. unfold close_chan. simpl. destruct (existsb _ _); reflexivity. Qed.

Lemma clock_close_chan c w : clock (close_chan c w) = clock w.
Proof. unfold close_chan. simpl. destruct (existsb _ _); reflexivity. Qed.

Lemma requests_close_chan c w :
  requests (close_chan c w) = wake_request c <$> requests w.
Proof. unfold close_chan. simpl. destruct (existsb _ _); reflexivity. Qed.

Lemma kills_close_chan c w : kills (close_chan c w) = kills w.
Proof. unfold close_chan. simpl. destruct (existsb _ _); reflexivity. Qed.

Lemma timers_close_chan c w : timers (close_chan c w) = timers w.
Proof. unfold close_chan. simpl. destruct (existsb _ _); reflexivity. Qed.

Lemma fs_close_chan c w : fs (close_chan c w) = fs w.
Proof. unfold close_chan. simpl. destruct (existsb _ _); reflexivity. Qed.

Lemma closed_close_chan c w : closed (close_chan c w) = c :: closed w.
Proof. unfold close_chan. simpl. destruct (existsb _ _); reflexivity. Qed.

Lemma length_gens_close_chan c w : length (gens (close_chan c w)) = length (gens w).
Proof.
  unfold close_chan. simpl. destruct (existsb _ _); simpl;
    rewrite ?length_fmap; reflexivity.
Qed.

Lemma is_closed_close_chan c w : is_closed c (close_chan c w) = true.
Proof.
  unfold is_closed. rewrite closed_close_chan. cbn. rewrite Nat.eqb_refl. reflexivity.
Qed.

Lemma is_closed_stays c c' w :
  is_closed c w = true -> is_closed c (close_chan c' w) = true.
Proof.
  unfold is_closed. rewrite closed_close_chan. cbn. intros ->. apply orb_true_r.
Qed.

(** ** Start *)

Lemma Start_conflict mk sp w c :
  cmd (m w) = Some c -> Start mk sp w = (w, Some ErrAlreadyStarted).
Proof. intros H. unfold Start. rewrite H. reflexivity. Qed.

Lemma Start_mkdir_failure sp w e :
  cmd (m w) = None ->
  Start (MkdirErr e) sp w = (set_m (set_tempdir "") w, Some e).
Proof. intros H. unfold Start. rewrite H. reflexivity. Qed.

Lemma Start_spawned dir pid w :
  cmd (m w) = None ->
  Start (MkdirOk dir) (SpawnOk pid) w = (started dir (Some pid) w, None).
Proof.
  intros H. unfold Start. rewrite H. unfold started, make_chan, call_hook. simpl.
  destruct (onStart (events (m w))); reflexivity.
Qed.

Lemma Start_spawn_failure dir e w :
  cmd (m w) = None ->
  Start (MkdirOk dir) (SpawnErr e) w = (started dir None w, Some e).
Proof.
  intros H. unfold Start. rewrite H. unfold started, make_chan, call_hook. simpl.
  destruct (onStart (events (m w))); reflexivity.
Qed.

(** ** Stop and Cleanup *)

Lemma m_call_hook b h w : m (call_hook b h w) = m w.
Proof. destruct b; reflexivity. Qed.

Lemma kills_call_hook b h w : kills (call_hook b h w) = kills w.
Proof. destruct b; reflexivity. Qed.

Lemma Stop_idle pg w : cmd (m w) = None -> Stop pg w = Return w.
Proof. intros H. unfold Stop. rewrite H. reflexivity. Qed.

(** [Stop] on a session whose subprocess runs: the handle is cleared and
    the signal is sent. *)
Lemma Stop_running pg w c pid :
  cmd (m w) = Some c -> Process c = Some pid ->
  is_closed (shutdown (m w)) w = false ->
  exists w', Stop pg w = Return w'
    /\ cmd (m w') = None
    /\ tempdir (m w') = tempdir (m w)
    /\ kills w' = kills w ++ [match pg with
                              | Some pgid => KillGroup pgid
                              | None => KillProcess pid
                              end]
    /\ timers w' = timers w ++ [clock w + removeDelay]
    /\ fs w' = fs w
    /\ clock w' = clock w.
Proof.
  intros Hc Hp Ho. unfold Stop. rewrite Hc, Ho, Hp.
  eexists. split; [reflexivity|].
  unfold call_hook.
  destruct pg; cbn; rewrite ?m_close_chan;
    destruct (onStop (events (m w))); cbn;
    rewrite ?m_close_chan, ?kills_close_chan, ?timers_close_chan,
      ?clock_close_chan, ?fs_close_chan;
    repeat split; reflexivity.
Qed.

(** [Stop] never clears a handle that has no process object. *)
Lemma Stop_keeps_unspawned pg w c :
  cmd (m w) = Some c -> Process c = None ->
  cmd (m (world_of (Stop pg w))) = Some c.
Proof.
  intros Hc Hp. unfold Stop. rewrite Hc, Hp.
  destruct (is_closed _ _); cbn; [exact Hc|].
  rewrite m_call_hook. cbn. rewrite m_close_chan. exact Hc.
Qed.

Lemma cleanup_stop_spec w :
  cleanup_stop w = true <->
  (active (m w) = true /\ activeIdleTimeout < clock w - lastRequest (m w))
  \/ (active (m w) = false /\ inactiveIdleTimeout < clock w - lastRequest (m w)).
Proof.
  unfold cleanup_stop.
  rewrite !Since_exceeds by (unfold activeIdleTimeout, inactiveIdleTimeout, Second, maxInt; lia).
  destruct (active (m w)); simpl; rewrite ?orb_false_r; rewrite Z.ltb_lt;
    split; intros H; intuition congruence.
Qed.

(** C3.  [Cleanup] applies the two-tier idle policy: it calls [Stop]
    exactly when the session is active and has been idle for more than
    [activeIdleTimeout], or is not active and has been idle for more
    than the strictly longer [inactiveIdleTimeout]; otherwise it returns
    the world unchanged.  For a session whose subprocess runs, the
    subprocess is stopped (handle cleared, kill signal sent) if and only
    if that condition holds. *)
Theorem Cleanup_two_tier_idle_policy (w : World) (pg : option Pid) :
  let idle := clock w - lastRequest (m w) in
  let expired :=
    (active (m w) = true /\ activeIdleTimeout < idle)
    \/ (active (m w) = false /\ inactiveIdleTimeout < idle) in
  activeIdleTimeout < inactiveIdleTimeout
  /\ (expired -> Cleanup pg w = Stop pg w)
  /\ (~ expired -> Cleanup pg w = Return w)
  /\ (forall c pid,
        cmd (m w) = Some c -> Process c = Some pid ->
        is_closed (shutdown (m w)) w = false ->
        exists w', Cleanup pg w = Return w'
          /\ (cmd (m w') = None <-> expired)
          /\ (expired ->
              kills w' = kills w ++ [match pg with
                                     | Some pgid => KillGroup pgid
                                     | None => KillProcess pid
                                     end])).
Proof.
  intros idle expired.
  assert (Hspec : cleanup_stop w = true <-> expired) by apply cleanup_stop_spec.
  split; [unfold activeIdleTimeout, inactiveIdleTimeout, Second; lia|].
  split; [|split].
  - intros He. apply Hspec in He. unfold Cleanup. rewrite He. reflexivity.
  - intros Hn. unfold Cleanup. destruct (cleanup_stop w) eqn:E; [|reflexivity].
    exfalso. apply Hn, Hspec. reflexivity.
  - intros c pid Hc Hp Ho. unfold Cleanup.
    destruct (cleanup_stop w) eqn:E.
    + destruct (Stop_running pg w c pid Hc Hp Ho) as (w' & HS & Hcmd & _ & Hk & _).
      exists w'. split; [exact HS|]. split; [|intros _; exact Hk].
      split; intros _; [apply Hspec; reflexivity | exact Hcmd].
    + exists w. split; [reflexivity|]. split.
      * rewrite Hc. split; [discriminate|]. intros He. apply Hspec in He. congruence.
      * intros He. apply Hspec in He. congruence.
Qed.

(** C5.  [Start] on a session that has a subprocess handle returns the
    error "has already started" and leaves the whole world, and so every
    field of the running generation, as it was. *)
Theorem Start_twice_conflict (w : World) (c : Cmd) (mk : MkdirResult) (sp : SpawnResult) :
  cmd (m w) = Some c ->
  exists e, Start mk sp w = (w, Some e) /\ Error e = "has already started".
Proof.
  intros H. exists ErrAlreadyStarted. split; [|reflexivity].
  apply Start_conflict with c. exact H.
Qed.

(** ** The output reader *)

Arguments reader_resume : simpl never.

Lemma m_reader_resume r err w : m (reader_resume r err w) = m w.
Proof.
  unfold reader_resume. destruct (is_closed _ _); cbn; [reflexivity|].
  apply m_close_chan.
Qed.

Lemma clock_reader_resume r err w : clock (reader_resume r err w) = clock w.
Proof.
  unfold reader_resume. destruct (is_closed _ _); cbn; [reflexivity|].
  apply clock_close_chan.
Qed.

Lemma length_gens_reader_resume r err w :
  length (gens (reader_resume r err w)) = length (gens w).
Proof.
  unfold reader_resume. destruct (is_closed _ _); cbn;
    rewrite length_alter; [reflexivity|]. apply length_gens_close_chan.
Qed.

(** After the reader resumed, the handoff is closed: it closed it, or
    found it closed. *)
Lemma is_closed_reader_resume r err w :
  is_closed (playlistLoad (m w)) (reader_resume r err w) = true.
Proof.
  unfold reader_resume.
  destruct (is_closed (playlistLoad (m w)) w) eqn:E; cbn.
  - exact E.
  - apply is_closed_close_chan.
Qed.

(** Resuming on an open handoff answers every other parked request with
    the zero value and leaves the answered ones alone. *)
Lemma requests_reader_resume r err w :
  is_closed (playlistLoad (m w)) w = false ->
  requests (reader_resume r err w) = wake_request (playlistLoad (m w)) <$> requests w.
Proof.
  intros E. unfold reader_resume. rewrite E. cbn. apply requests_close_chan.
Qed.

Lemma m_send_playlist r err to w w' :
  send_playlist r err to w = Some w' -> m w' = m w.
Proof.
  unfold send_playlist. intros H.
  destruct (is_closed _ _); [injection H as <-; reflexivity|].
  destruct to as [i|].
  - destruct (requests w !! i) as [h|]; [|discriminate].
    destruct (waits_on _ h); [|discriminate].
    injection H as <-. rewrite m_reader_resume. reflexivity.
  - destruct (existsb _ _); [discriminate|]. injection H as <-. reflexivity.
Qed.

(** What a read leaves in the manager: the playlist is the chunk, the
    counter is one more. *)
Lemma reader_read_nonempty r data err to w w' :
  reader_read r data err to w = Some w' -> data <> "" ->
  playlist (m w') = data
  /\ sequence (m w') = int_add (sequence (m w)) 1
  /\ active (m w') =
       (if int_add (sequence (m w)) 1 =? hlsMinimumSegments then true else active (m w)).
Proof.
  unfold reader_read. intros H Hne.
  destruct (gens w !! r) as [g|]; [|discriminate].
  destruct (reader g); try discriminate.
  destruct (valid_read g data err); [|discriminate]. cbn in H.
  destruct (String.length data =? 0)%nat eqn:E.
  { apply length_zero_empty in E. contradiction. }
  cbn in H.
  destruct (int_add (sequence (m w)) 1 =? hlsMinimumSegments) eqn:E2.
  - apply m_send_playlist in H. rewrite H. cbn. auto.
  - injection H as <-. cbn. auto.
Qed.

Lemma reader_read_empty r err to w w' :
  reader_read r "" err to w = Some w' ->
  w' = set_gens (alter (set_reader (after_read err)) r) w.
Proof.
  unfold reader_read. intros H.
  destruct (gens w !! r) as [g|]; [|discriminate].
  destruct (reader g); try discriminate.
  destruct (valid_read g "" err); [|discriminate]. cbn in H.
  injection H as <-. reflexivity.
Qed.

(** A read that reports an error carries no byte. *)
Lemma reader_read_error_empty r data e to w w' :
  reader_read r data (Some e) to w = Some w' -> data = "".
Proof.
  unfold reader_read. intros H.
  destruct (gens w !! r) as [g|]; [|discriminate].
  destruct (reader g); try discriminate.
  destruct (valid_read g data (Some e)) eqn:V; [|discriminate].
  unfold valid_read in V. apply andb_true_iff in V as [_ V].
  apply length_zero_empty. exact V.
Qed.

Lemma reader_read_enabled r data err to w w' :
  reader_read r data err to w = Some w' ->
  exists g, gens w !! r = Some g /\ reader g = RRead.
Proof.
  unfold reader_read. intros H.
  destruct (gens w !! r) as [g|]; [|discriminate].
  destruct (reader g) eqn:E; try discriminate.
  exists g. auto.
Qed.

Lemma wake_request_done c r : wake_request c (HDone r) = HDone r.
Proof. reflexivity. Qed.

Lemma reader_close_chan c w r :
  reader <$> (gens (close_chan c w) !! r)
  = (fun g => if sender_on c g then RExit else reader g) <$> (gens w !! r).
Proof.
  unfold close_chan. cbn.
  destruct (existsb (sender_on c) (gens w)) eqn:E; cbn.
  - rewrite !list_lookup_fmap. destruct (gens w !! r) as [g|]; cbn; [|reflexivity].
    f_equal. unfold abort_sender, wake_reaper.
    destruct (sender_on c g);
      cbn; destruct (reaper g) as [sd| |]; cbn; try destruct (Nat.eqb sd c); reflexivity.
  - rewrite !list_lookup_fmap. destruct (gens w !! r) as [g|] eqn:G; cbn; [|reflexivity].
    f_equal.
    assert (Hs : sender_on c g = false).
    { destruct (sender_on c g) eqn:S; [|reflexivity].
      assert (existsb (sender_on c) (gens w) = true); [|congruence].
      apply existsb_exists. exists g. split; [|exact S].
      apply list_elem_of_In, list_elem_of_lookup. eauto. }
    rewrite Hs. unfold wake_reaper.
    destruct (reaper g) as [sd| |]; cbn; try destruct (Nat.eqb sd c); reflexivity.
Qed.

(** The read that takes the counter to [hlsMinimumSegments] while the
    request [i] is parked on the open handoff: the session is marked
    active, request [i] is answered with the chunk, the handoff is
    closed, which answers every other request parked on it with the
    empty string, and the reader goes on with its loop. *)
Lemma activation_with_waiter r g data err i h w :
  gens w !! r = Some g -> reader g = RRead -> valid_read g data err = true ->
  data <> "" ->
  int_add (sequence (m w)) 1 = hlsMinimumSegments ->
  is_closed (playlistLoad (m w)) w = false ->
  requests w !! i = Some h -> waits_on (playlistLoad (m w)) h = true ->
  exists w',
    reader_read r data err (Some i) w = Some w'
    /\ m w' = set_active true (set_sequence hlsMinimumSegments (set_playlist data (m w)))
    /\ requests w' = wake_request (playlistLoad (m w))
                       <$> <[i := HDone (playlist_response data)]> (requests w)
    /\ closed w' = playlistLoad (m w) :: closed w
    /\ reader <$> (gens w' !! r) = Some (after_read err).
Proof.
  intros Hg Hr Hv Hne Hseq Hc Hi Hw.
  unfold reader_read. rewrite Hg, Hr, Hv. cbn.
  destruct (String.length data =? 0)%nat eqn:E.
  { apply length_zero_empty in E. contradiction. }
  cbn. rewrite Hseq. cbn.
  unfold send_playlist. cbn.
  change (is_closed (playlistLoad (m w))
            (set_m (set_active true)
               (set_m (set_sequence hlsMinimumSegments) (set_m (set_playlist data) w))))
    with (is_closed (playlistLoad (m w)) w).
  rewrite Hc, Hi, Hw.
  eexists. split; [reflexivity|].
  split; [rewrite m_reader_resume; reflexivity|].
  split.
  { rewrite requests_reader_resume; [reflexivity|exact Hc]. }
  unfold reader_resume. cbn.
  change (is_closed (playlistLoad (m w)) _) with (is_closed (playlistLoad (m w)) w).
  rewrite Hc. cbn. split; [rewrite closed_close_chan; reflexivity|].
  rewrite list_lookup_alter_eq.
  pose proof (reader_close_chan (playlistLoad (m w))
    (set_requests <[i:=HDone (playlist_response data)]>
       (set_m (set_active true)
          (set_m (set_sequence hlsMinimumSegments) (set_m (set_playlist data) w)))) r) as Hrc.
  change (gens (set_requests _ _)) with (gens w) in Hrc.
  rewrite Hg in Hrc. cbn in Hrc. rewrite Hr in Hrc.
  destruct (gens (close_chan _ _) !! r) as [g'|]; [|discriminate].
  reflexivity.
Qed.

(** With a request parked on the open handoff, the send cannot block:
    every way the activating read can run reaches a parked request. *)
Lemma activation_reaches_a_waiter r g data err j hj to w w' :
  gens w !! r = Some g -> reader g = RRead -> valid_read g data err = true ->
  data <> "" ->
  int_add (sequence (m w)) 1 = hlsMinimumSegments ->
  is_closed (playlistLoad (m w)) w = false ->
  requests w !! j = Some hj -> waits_on (playlistLoad (m w)) hj = true ->
  reader_read r data err to w = Some w' ->
  exists i h, to = Some i /\ requests w !! i = Some h
              /\ waits_on (playlistLoad (m w)) h = true.
Proof.
  intros Hg Hr Hv Hne Hseq Hc Hj Hwj H.
  unfold reader_read in H. rewrite Hg, Hr, Hv in H. cbn in H.
  destruct (String.length data =? 0)%nat eqn:E.
  { apply length_zero_empty in E. contradiction. }
  cbn in H. rewrite Hseq in H. cbn in H.
  unfold send_playlist in H. cbn in H.
  change (is_closed (playlistLoad (m w)) _) with (is_closed (playlistLoad (m w)) w) in H.
  rewrite Hc in H. destruct to as [i|].
  - destruct (requests w !! i) as [h|] eqn:Hi; [|discriminate].
    destruct (waits_on _ h) eqn:Hw; [|discriminate]. eauto.
  - assert (Hex : existsb (waits_on (playlistLoad (m w))) (requests w) = true).
    { apply existsb_exists. exists hj. split; [|exact Hwj].
      apply list_elem_of_In, list_elem_of_lookup. eauto. }
    rewrite Hex in H. discriminate.
Qed.

(** ** How each operation changes the manager and the generations *)

Lemma Stop_effect pg w :
  stop_effect (m w) (m (world_of (Stop pg w)))
  /\ length (gens (world_of (Stop pg w))) = length (gens w).
Proof.
  unfold Stop. destruct (cmd (m w)) as [c|] eqn:Hc; [|split; [left|]; reflexivity].
  destruct (is_closed _ _); [split; [left|]; reflexivity|].
  cbn. rewrite m_call_hook. unfold call_hook.
  destruct (Process c) as [pid|] eqn:Hp.
  - split.
    + right. split; [|eauto].
      destruct pg; cbn; rewrite m_close_chan; reflexivity.
    + destruct pg; cbn; rewrite ?m_close_chan; destruct (onStop _); cbn;
        apply length_gens_close_chan.
  - split.
    + left. cbn. apply m_close_chan.
    + cbn. rewrite m_close_chan. destruct (onStop _); cbn; apply length_gens_close_chan.
Qed.

Lemma Cleanup_effect pg w :
  stop_effect (m w) (m (world_of (Cleanup pg w)))
  /\ length (gens (world_of (Cleanup pg w))) = length (gens w).
Proof.
  unfold Cleanup. destruct (cleanup_stop w); [apply Stop_effect|].
  split; [left|]; reflexivity.
Qed.

Arguments select_enter : simpl never.

Lemma m_select_enter local b w : m (select_enter local b w) = m w.
Proof.
  unfold select_enter.
  destruct (is_closed (shutdown (m w)) w && _); [reflexivity|].
  destruct (find_sender _ _ _) as [[[r v] err]|].
  - rewrite m_reader_resume. reflexivity.
  - destruct (is_closed _ _); reflexivity.
Qed.

Lemma length_gens_select_enter local b w :
  length (gens (select_enter local b w)) = length (gens w).
Proof.
  unfold select_enter.
  destruct (is_closed (shutdown (m w)) w && _); [reflexivity|].
  destruct (find_sender _ _ _) as [[[r v] err]|].
  - rewrite length_gens_reader_resume. reflexivity.
  - destruct (is_closed _ _); reflexivity.
Qed.

(** [Start], seen from the manager: a conflict changes nothing, a failed
    [MkdirTemp] only blanks [tempdir], and past the directory creation a
    new generation exists. *)
Lemma Start_effect mk sp w :
  (exists c, cmd (m w) = Some c /\ fst (Start mk sp w) = w)
  \/ (cmd (m w) = None /\ fst (Start mk sp w) = set_m (set_tempdir "") w)
  \/ (cmd (m w) = None
      /\ length (gens (fst (Start mk sp w))) = S (length (gens w))
      /\ exists c, cmd (m (fst (Start mk sp w))) = Some c
           /\ Process c = match sp with SpawnOk pid => Some pid | SpawnErr _ => None end).
Proof.
  destruct (cmd (m w)) as [c|] eqn:Hc.
  - left. exists c. rewrite (Start_conflict mk sp w c Hc). auto.
  - right. destruct mk as [dir|e].
    + right. split; [reflexivity|].
      destruct sp as [pid|e].
      * rewrite (Start_spawned dir pid w Hc). cbn. rewrite length_app. cbn.
        split; [lia|]. eexists. split; reflexivity.
      * rewrite (Start_spawn_failure dir e w Hc). cbn. rewrite length_app. cbn.
        split; [lia|]. eexists. split; reflexivity.
    + left. rewrite (Start_mkdir_failure sp w e Hc). auto.
Qed.

Lemma ServePlaylist_running mk sp b w c :
  cmd (m w) = Some c ->
  ServePlaylist mk sp b w =
    let w1 := set_m (set_lastRequest (clock w)) w in
    if negb (active (m w)) then select_enter (playlist (m w)) b w1
    else set_requests (fun l => l ++ [HDone (playlist_response (playlist (m w)))]) w1.
Proof. intros H. unfold ServePlaylist. cbn. rewrite H. reflexivity. Qed.

Lemma ServePlaylist_start mk sp b w :
  cmd (m w) = None ->
  ServePlaylist mk sp b w =
    let w1 := set_m (set_lastRequest (clock w)) w in
    match snd (Start mk sp w1) with
    | Some e =>
        set_requests
          (fun l => l ++ [HDone (mkResponse StatusInternalServerError [] (Error e))])
          (fst (Start mk sp w1))
    | None =>
        if negb (active (m (fst (Start mk sp w1))))
        then select_enter (playlist (m w)) b (fst (Start mk sp w1))
        else set_requests (fun l => l ++ [HDone (playlist_response (playlist (m w)))])
               (fst (Start mk sp w1))
    end.
Proof.
  intros H. unfold ServePlaylist. cbn. rewrite H.
  destruct (Start mk sp _) as [w2 [e|]]; reflexivity.
Qed.

(** The manager and the generations after [ServePlaylist] are those
    after its lazy [Start]. *)
Lemma ServePlaylist_effect mk sp b w :
  let w1 := set_m (set_lastRequest (clock w)) w in
  let ws := match cmd (m w) with
            | None => fst (Start mk sp w1)
            | Some _ => w1
            end in
  m (ServePlaylist mk sp b w) = m ws
  /\ length (gens (ServePlaylist mk sp b w)) = length (gens ws).
Proof.
  cbn. destruct (cmd (m w)) as [c|] eqn:Hc.
  - rewrite (ServePlaylist_running mk sp b w c Hc). cbn.
    destruct (negb _); [rewrite m_select_enter, length_gens_select_enter|]; auto.
  - rewrite (ServePlaylist_start mk sp b w Hc). cbn.
    destruct (snd _); [|destruct (negb _)];
      rewrite ?m_select_enter, ?length_gens_select_enter; auto.
Qed.

(** The reader writes only [playlist], [sequence] and [active]. *)
Lemma reader_read_manager r data err to w w' :
  reader_read r data err to w = Some w' ->
  exists a s p,
    m w' = mkManager a (events (m w)) (cmd (m w)) (tempdir (m w)) (lastRequest (m w))
                     s p (playlistLoad (m w)) (shutdown (m w))
    /\ (active (m w) = true -> a = true).
Proof.
  unfold reader_read. intros H.
  destruct (gens w !! r) as [g|]; [|discriminate].
  destruct (reader g); try discriminate.
  destruct (valid_read g data err); [|discriminate]. cbn in H.
  destruct (String.length data =? 0)%nat; cbn in H.
  - injection H as <-. exists (active (m w)), (sequence (m w)), (playlist (m w)).
    cbn. destruct (m w); cbn. split; [reflexivity|trivial].
  - destruct (_ =? hlsMinimumSegments).
    + apply m_send_playlist in H. rewrite H. cbn. eauto.
    + injection H as <-. cbn. eauto.
Qed.

Lemma length_gens_send_playlist r err to w w' :
  send_playlist r err to w = Some w' -> length (gens w') = length (gens w).
Proof.
  unfold send_playlist. intros H.
  destruct (is_closed _ _); [injection H as <-; cbn; apply length_alter|].
  destruct to as [i|].
  - destruct (requests w !! i) as [h|]; [|discriminate].
    destruct (waits_on _ h); [|discriminate].
    injection H as <-. rewrite length_gens_reader_resume. reflexivity.
  - destruct (existsb _ _); [discriminate|]. injection H as <-. cbn. apply length_alter.
Qed.

Lemma length_gens_reader_read r data err to w w' :
  reader_read r data err to w = Some w' -> length (gens w') = length (gens w).
Proof.
  unfold reader_read. intros H.
  destruct (gens w !! r) as [g|]; [|discriminate].
  destruct (reader g); try discriminate.
  destruct (valid_read g data err); [|discriminate]. cbn in H.
  destruct (String.length data =? 0)%nat; cbn in H.
  - injection H as <-. cbn. apply length_alter.
  - destruct (_ =? hlsMinimumSegments).
    + apply length_gens_send_playlist in H. rewrite H. reflexivity.
    + injection H as <-. cbn. apply length_alter.
Qed.

Lemma reaper_tick_effect j pg w w' :
  reaper_tick j pg w = Some w' ->
  stop_effect (m w) (m w') /\ length (gens w') = length (gens w).
Proof.
  unfold reaper_tick. intros H.
  destruct (gens w !! j) as [g|]; [|discriminate].
  destruct (reaper g); try discriminate.
  pose proof (Cleanup_effect pg (set_gens (alter (set_reaper Running) j) w)) as [He Hl].
  cbn in He, Hl. rewrite length_alter in Hl.
  destruct (Cleanup pg _) as [w1|w1]; cbn in He, Hl.
  - destruct (is_closed _ _); injection H as <-; cbn; rewrite length_alter; auto.
  - injection H as <-. cbn. rewrite length_alter. auto.
Qed.

Lemma request_timeout_frame i w w' :
  request_timeout i w = Some w' ->
  w' = set_requests (<[i := HDone (ServePlaylist_resume RecvTimeout)]>) w.
Proof.
  unfold request_timeout. intros H.
  destruct (requests w !! i) as [[? ? ? dl|]|]; try discriminate.
  destruct (dl <=? clock w); [|discriminate]. injection H as <-. reflexivity.
Qed.

Lemma timer_fire_frame k w w' :
  timer_fire k w = Some w' ->
  w' = set_timers (delete k) (set_fs (RemoveAll (tempdir (m w))) w).
Proof.
  unfold timer_fire. intros H.
  destruct (timers w !! k) as [dl|]; [|discriminate].
  destruct (dl <=? clock w); [|discriminate]. injection H as <-. reflexivity.
Qed.

Lemma write_segment_frame name w w' :
  write_segment name w = Some w' -> m w' = m w /\ gens w' = gens w /\ requests w' = requests w.
Proof.
  unfold write_segment. intros H.
  destruct (cmd (m w)) as [c|]; [|discriminate].
  destruct (Process c); [|discriminate].
  destruct (_ || _); [discriminate|].
  destruct (exists_path _ _); injection H as <-; auto.
Qed.

(** A step never clears a handle that has no process object. *)
Lemma exec_keeps_unspawned l w w' c :
  exec l w = Some w' ->
  cmd (m w) = Some c -> Process c = None -> cmd (m w') = Some c.
Proof.
  intros H Hc Hp.
  assert (Hstop : forall x', stop_effect (m w) x' -> cmd x' = Some c).
  { intros x' [->|[_ (c' & pid & Hc' & Hp')]]; [exact Hc|]. congruence. }
  destruct l; cbn in H.
  - destruct (0 <=? d); [|discriminate]. injection H as <-. exact Hc.
  - destruct (valid_mkdir mk w); [|discriminate]. injection H as <-.
    rewrite (Start_conflict mk sp w c Hc). exact Hc.
  - injection H as <-. apply Stop_keeps_unspawned; assumption.
  - injection H as <-. apply Hstop, Cleanup_effect.
  - destruct (valid_mkdir mk w); [|discriminate]. injection H as <-.
    rewrite (ServePlaylist_running mk sp prefer_shutdown w c Hc). cbn.
    destruct (negb _); [rewrite m_select_enter|]; exact Hc.
  - apply request_timeout_frame in H. subst w'. exact Hc.
  - apply reader_read_manager in H as (a & s & p & -> & _). exact Hc.
  - apply reaper_tick_effect in H as [He _]. apply Hstop, He.
  - apply timer_fire_frame in H. subst w'. exact Hc.
  - injection H as <-. unfold ServeMedia. destruct (negb _); exact Hc.
  - apply write_segment_frame in H as (-> & _). exact Hc.
  - injection H as <-. exact Hc.
  - injection H as <-. exact Hc.
  - injection H as <-. exact Hc.
Qed.

Lemma run_keeps_unspawned ls w w' c :
  run ls w = Some w' ->
  cmd (m w) = Some c -> Process c = None -> cmd (m w') = Some c.
Proof.
  revert w. induction ls as [|l ls IH]; intros w H Hc Hp; cbn in H.
  - injection H as <-. exact Hc.
  - destruct (exec l w) as [w1|] eqn:E; [|discriminate].
    apply (IH w1 H); [|exact Hp].
    apply (exec_keeps_unspawned l w w1 c E Hc Hp).
Qed.

(** C10.  When [cmd.Start] fails, [Start] returns that error with the
    handle set and without a process object.  In every world reached
    from there the handle is still that same one: every later [Start]
    returns the conflict error and changes nothing, [Stop] leaves the
    handle in place, and no subprocess is ever spawned again. *)
Theorem spawn_failure_bricks_session
    (w : World) (dir : string) (e : error) :
  cmd (m w) = None ->
  let w1 := fst (Start (MkdirOk dir) (SpawnErr e) w) in
  snd (Start (MkdirOk dir) (SpawnErr e) w) = Some e
  /\ exists c, cmd (m w1) = Some c /\ Process c = None
     /\ forall w', reachable w1 w' ->
          cmd (m w') = Some c
          /\ (forall mk sp, Start mk sp w' = (w', Some ErrAlreadyStarted))
          /\ (forall pg, cmd (m (world_of (Stop pg w'))) = Some c).
Proof.
  intros Hc w1. subst w1. rewrite (Start_spawn_failure dir e w Hc). cbn.
  split; [reflexivity|]. eexists. split; [reflexivity|]. split; [reflexivity|].
  intros w' [ls Hrun].
  assert (Hc' : cmd (m w') = Some
    (mkCmd dir (if onCmdLog (events (m w)) then LogEvent else LogWriter)
           (length (gens w)) true None)).
  { apply (run_keeps_unspawned ls _ _ _ Hrun); reflexivity. }
  split; [exact Hc'|]. split.
  - intros mk sp. apply (Start_conflict mk sp w' _ Hc').
  - intros pg. apply Stop_keeps_unspawned; [exact Hc'|reflexivity].
Qed.

(** ** The active flag between two starts *)

Lemma stop_effect_active x x' : stop_effect x x' -> active x' = active x.
Proof. intros [->|[-> _]]; reflexivity. Qed.

(** A step keeps the flag set, unless it is a [Start] that got past the
    directory creation and so began a new generation. *)
Lemma exec_active l w w' :
  exec l w = Some w' ->
  (length (gens w) <= length (gens w'))%nat
  /\ (active (m w) = true ->
      active (m w') = true \/ length (gens w') = S (length (gens w))).
Proof.
  intros H. destruct l; cbn in H.
  - destruct (0 <=? d); [|discriminate]. injection H as <-. cbn. auto.
  - destruct (valid_mkdir mk w); [|discriminate]. injection H as <-.
    destruct (Start_effect mk sp w) as [(c & _ & ->)|[(_ & ->)|(_ & Hl & _)]]; cbn; auto.
    rewrite Hl. auto.
  - injection H as <-. destruct (Stop_effect pg w) as [He ->].
    rewrite (stop_effect_active _ _ He). auto.
  - injection H as <-. destruct (Cleanup_effect pg w) as [He ->].
    rewrite (stop_effect_active _ _ He). auto.
  - destruct (valid_mkdir mk w); [|discriminate]. injection H as <-.
    destruct (ServePlaylist_effect mk sp prefer_shutdown w) as [-> ->].
    destruct (cmd (m w)) as [c|] eqn:Hc; [cbn; auto|].
    destruct (Start_effect mk sp (set_m (set_lastRequest (clock w)) w))
      as [(c & _ & ->)|[(_ & ->)|(_ & Hl & _)]]; cbn; auto.
    rewrite Hl. cbn. auto.
  - apply request_timeout_frame in H. subst w'. cbn. auto.
  - pose proof (length_gens_reader_read _ _ _ _ _ _ H) as Hl.
    apply reader_read_manager in H as (a & s & p & -> & Ha). cbn. rewrite Hl. auto.
  - apply reaper_tick_effect in H as [He ->].
    rewrite (stop_effect_active _ _ He). auto.
  - apply timer_fire_frame in H. subst w'. cbn. auto.
  - injection H as <-. unfold ServeMedia. destruct (negb _); cbn; auto.
  - apply write_segment_frame in H as (-> & -> & _). auto.
  - injection H as <-. cbn. auto.
  - injection H as <-. cbn. auto.
  - injection H as <-. cbn. auto.
Qed.

Lemma run_gens_grow ls w w' :
  run ls w = Some w' -> (length (gens w) <= length (gens w'))%nat.
Proof.
  revert w. induction ls as [|l ls IH]; intros w H; cbn in H.
  - injection H as <-. lia.
  - destruct (exec l w) as [w1|] eqn:E; [|discriminate].
    apply exec_active in E as [Hle _]. apply IH in H. lia.
Qed.

(** Once set, the flag stays set as long as no new generation begins. *)
Lemma run_active ls w w' :
  run ls w = Some w' -> active (m w) = true ->
  length (gens w') = length (gens w) -> active (m w') = true.
Proof.
  revert w. induction ls as [|l ls IH]; intros w H Ha Hl; cbn in H.
  - injection H as <-. exact Ha.
  - destruct (exec l w) as [w1|] eqn:E; [|discriminate].
    pose proof (run_gens_grow _ _ _ H) as Hg.
    apply exec_active in E as [Hle Hact].
    destruct (Hact Ha) as [Ha1|Hgrow]; [|lia].
    apply (IH w1 H Ha1). lia.
Qed.

(** ** Marking the session active *)

(** A read that does not take the counter to the minimum neither marks
    the session active nor touches the handoff or a request. *)
Lemma reader_read_no_activation r data err to w w' :
  reader_read r data err to w = Some w' ->
  activates (LRead r data err to) w = false ->
  active (m w') = active (m w) /\ requests w' = requests w /\ closed w' = closed w.
Proof.
  unfold reader_read, activates. intros H Hn.
  destruct (gens w !! r) as [g|]; [|discriminate].
  destruct (reader g); try discriminate.
  destruct (valid_read g data err); [|discriminate]. cbn in H.
  destruct (String.length data =? 0)%nat; cbn in H, Hn.
  - injection H as <-. auto.
  - rewrite Hn in H. injection H as <-. auto.
Qed.

Lemma stop_effect_sequence x x' : stop_effect x x' -> sequence x' = sequence x.
Proof. intros [->|[-> _]]; reflexivity. Qed.

(** Within a generation the counter moves only by the reader, one up at
    a time. *)
Lemma exec_sequence l w w' :
  exec l w = Some w' -> length (gens w') = length (gens w) ->
  (activates l w = true -> sequence (m w') = int_add (sequence (m w)) 1)
  /\ (sequence (m w') = sequence (m w)
      \/ sequence (m w') = int_add (sequence (m w)) 1).
Proof.
  intros H Hl. destruct l; cbn in H; cbn [activates];
    try (split; [discriminate|]).
  - destruct (0 <=? d); [|discriminate]. injection H as <-. auto.
  - destruct (valid_mkdir mk w); [|discriminate]. injection H as <-.
    destruct (Start_effect mk sp w) as [(c & _ & E)|[(_ & E)|(_ & Hg & _)]];
      [rewrite E; auto | rewrite E; auto | lia].
  - injection H as <-. destruct (Stop_effect pg w) as [He _].
    rewrite (stop_effect_sequence _ _ He). auto.
  - injection H as <-. destruct (Cleanup_effect pg w) as [He _].
    rewrite (stop_effect_sequence _ _ He). auto.
  - destruct (valid_mkdir mk w); [|discriminate]. injection H as <-.
    destruct (ServePlaylist_effect mk sp prefer_shutdown w) as [Hm Hg].
    rewrite Hm. rewrite Hg in Hl.
    destruct (cmd (m w)) as [c|] eqn:Hc; [cbn; auto|].
    destruct (Start_effect mk sp (set_m (set_lastRequest (clock w)) w))
      as [(c & _ & E)|[(_ & E)|(_ & Hg' & _)]];
      [rewrite E; cbn; auto | rewrite E; cbn; auto | cbn in Hg'; lia].
  - apply request_timeout_frame in H. subst w'. auto.
  - unfold reader_read in H.
    destruct (gens w !! r) as [g|]; [|discriminate].
    destruct (reader g); try discriminate.
    destruct (valid_read g data err); [|discriminate]. cbn in H.
    destruct (String.length data =? 0)%nat; cbn in H |- *.
    + injection H as <-. split; [discriminate|auto].
    + destruct (_ =? hlsMinimumSegments).
      * apply m_send_playlist in H. rewrite H. cbn. auto.
      * injection H as <-. cbn. split; [discriminate|auto].
  - apply reaper_tick_effect in H as [He _].
    rewrite (stop_effect_sequence _ _ He). auto.
  - apply timer_fire_frame in H. subst w'. auto.
  - injection H as <-. unfold ServeMedia. destruct (negb _); cbn; auto.
  - apply write_segment_frame in H as (-> & _). auto.
  - injection H as <-. auto.
  - injection H as <-. auto.
  - injection H as <-. auto.
Qed.

Lemma activates_sequence l w :
  activates l w = true -> 0 <= sequence (m w) < maxInt ->
  sequence (m w) = hlsMinimumSegments - 1.
Proof.
  destruct l; cbn; try discriminate. intros H Hb.
  apply andb_true_iff in H as [_ H]. apply Z.eqb_eq in H.
  unfold int_add in H. rewrite wrap_int_id in H; [lia|].
  unfold minInt, maxInt in *. lia.
Qed.

(** Within a generation, and short of the [2^63] reads that would wrap
    the counter, the session is marked active at most once, and not at
    all once the counter has reached the minimum. *)
Lemma activations_at_most_once ls : forall w w',
  run ls w = Some w' -> length (gens w') = length (gens w) ->
  0 <= sequence (m w) -> sequence (m w) + Z.of_nat (length ls) <= maxInt ->
  (activations ls w <= 1)%nat
  /\ (hlsMinimumSegments <= sequence (m w) -> activations ls w = 0%nat).
Proof.
  induction ls as [|l ls IH]; intros w w' H Hl H0 Hmax; cbn in H |- *.
  - split; [lia|reflexivity].
  - destruct (exec l w) as [w1|] eqn:E; [|discriminate].
    pose proof (run_gens_grow _ _ _ H) as Hg1.
    pose proof (exec_active _ _ _ E) as [Hg0 _].
    assert (Hl1 : length (gens w1) = length (gens w)) by lia.
    assert (Hl' : length (gens w') = length (gens w1)) by lia.
    pose proof (exec_sequence _ _ _ E Hl1) as [Hact Hseq].
    rewrite length_cons, Nat2Z.inj_succ in Hmax.
    assert (Hadd : int_add (sequence (m w)) 1 = sequence (m w) + 1).
    { unfold int_add. apply wrap_int_id. unfold minInt, maxInt in *. lia. }
    rewrite Hadd in Hact, Hseq.
    assert (H01 : 0 <= sequence (m w1)) by lia.
    assert (Hmax1 : sequence (m w1) + Z.of_nat (length ls) <= maxInt) by lia.
    destruct (IH w1 w' H Hl' H01 Hmax1) as [IH1 IH2].
    destruct (activates l w) eqn:A.
    + pose proof (activates_sequence l w A) as Hs.
      assert (Hs1 : sequence (m w) = hlsMinimumSegments - 1).
      { apply Hs. unfold maxInt in *. lia. }
      rewrite IH2 by (rewrite (Hact eq_refl); lia).
      split; [lia|]. intros Hge. lia.
    + split; [exact IH1|]. intros Hge. apply IH2. lia.
Qed.

(** ** The life of a playlist request *)

Lemma tracks_frame w w' :
  requests w' = requests w -> closed w' = closed w -> clock w' = clock w ->
  tracks w w'.
Proof.
  intros Hr Hc Hk. unfold tracks, waits_or_answered, resolved_by, is_closed.
  rewrite Hr, Hc, Hk. split; [lia|]. split; [auto|]. split; [auto|].
  intros i local pl sd dl Hi. left. exact Hi.
Qed.

Lemma tracks_refl w : tracks w w.
Proof. apply tracks_frame; reflexivity. Qed.

Lemma resolved_by_tracks o pl sd dl w w' :
  tracks w w' -> resolved_by o pl sd dl w -> resolved_by o pl sd dl w'.
Proof.
  intros (Hk & Hc & _) H. destruct o; cbn in *; auto. lia.
Qed.

Lemma tracks_trans w1 w2 w3 : tracks w1 w2 -> tracks w2 w3 -> tracks w1 w3.
Proof.
  intros T12 T23.
  pose proof T12 as (Hk1 & Hc1 & Hd1 & Hp1).
  pose proof T23 as (Hk2 & Hc2 & Hd2 & Hp2).
  split; [lia|]. split; [auto|]. split; [auto|].
  intros i local pl sd dl Hi.
  destruct (Hp1 i local pl sd dl Hi) as [Hw|(o & Ho & Hr)].
  - apply Hp2. exact Hw.
  - right. exists o. split; [apply Hd2; exact Ho|].
    apply (resolved_by_tracks o pl sd dl w2 w3 T23 Hr).
Qed.

Lemma tracks_close_chan c w : tracks w (close_chan c w).
Proof.
  unfold tracks, waits_or_answered.
  rewrite requests_close_chan, clock_close_chan.
  split; [lia|]. split; [|split].
  - intros c0. apply is_closed_stays.
  - intros i r Hi. rewrite list_lookup_fmap, Hi. reflexivity.
  - intros i local pl sd dl Hi. rewrite list_lookup_fmap, Hi. cbn.
    destruct (Nat.eqb_spec pl c) as [->|Hn1].
    + right. exists (RecvPlaylist ""). split; [reflexivity|]. cbn.
      apply is_closed_close_chan.
    + destruct (Nat.eqb_spec sd c) as [->|Hn2].
      * right. exists RecvShutdown. split; [reflexivity|]. cbn.
        apply is_closed_close_chan.
      * left. reflexivity.
Qed.

Lemma tracks_reader_resume r err w : tracks w (reader_resume r err w).
Proof.
  unfold reader_resume. destruct (is_closed _ _).
  - apply tracks_frame; reflexivity.
  - apply tracks_trans with (close_chan (playlistLoad (m w)) w).
    + apply tracks_close_chan.
    + apply tracks_frame; reflexivity.
Qed.

Lemma tracks_append h w : tracks w (set_requests (fun l => l ++ [h]) w).
Proof.
  unfold tracks, waits_or_answered. cbn.
  split; [lia|]. split; [auto|]. split.
  - intros i r Hi. rewrite lookup_app_l; [exact Hi|]. apply lookup_lt_Some in Hi. exact Hi.
  - intros i local pl sd dl Hi. left.
    rewrite lookup_app_l; [exact Hi|]. apply lookup_lt_Some in Hi. exact Hi.
Qed.

(** The timer of a parked request fires. *)
Lemma tracks_timeout i w w' :
  request_timeout i w = Some w' -> tracks w w'.
Proof.
  unfold request_timeout. intros H.
  destruct (requests w !! i) as [[loc pl0 sd0 dl0|]|] eqn:Hi; try discriminate.
  destruct (Z.leb_spec dl0 (clock w)) as [Hle|]; [|discriminate].
  injection H as <-. unfold tracks, waits_or_answered. cbn.
  split; [lia|]. split; [auto|]. split.
  - intros j r Hj. destruct (decide (i = j)) as [->|Hne]; [congruence|].
    rewrite list_lookup_insert_ne by exact Hne. exact Hj.
  - intros j local pl sd dl Hj. destruct (decide (i = j)) as [->|Hne].
    + right. exists RecvTimeout.
      rewrite list_lookup_insert_eq by (apply lookup_lt_Some in Hj; exact Hj).
      split; [reflexivity|]. cbn. congruence.
    + left. rewrite list_lookup_insert_ne by exact Hne. exact Hj.
Qed.

(** The reader's send reaches the parked request [i] and the reader
    closes the handoff. *)
Lemma tracks_deliver c v i h w :
  requests w !! i = Some h -> waits_on c h = true ->
  tracks w (close_chan c
              (set_requests (<[i := HDone (ServePlaylist_resume (RecvPlaylist v))]>) w)).
Proof.
  intros Hi Hw.
  destruct h as [loc pl0 sd0 dl0|]; [|discriminate]. cbn in Hw.
  apply Nat.eqb_eq in Hw. subst pl0.
  set (w1 := set_requests _ w).
  pose proof (tracks_close_chan c w1) as (Hk & Hc & Hd & Hp).
  unfold tracks, waits_or_answered.
  split; [exact Hk|]. split; [exact Hc|]. split.
  - intros j r Hj. apply Hd. unfold w1. cbn.
    destruct (decide (i = j)) as [->|Hne]; [congruence|].
    rewrite list_lookup_insert_ne by exact Hne. exact Hj.
  - intros j local pl sd dl Hj. destruct (decide (i = j)) as [->|Hne].
    + right. exists (RecvPlaylist v). split.
      * apply Hd. unfold w1. cbn.
        rewrite list_lookup_insert_eq by (apply lookup_lt_Some in Hj; exact Hj).
        reflexivity.
      * cbn. assert (pl = c) by congruence. subst pl.
        apply is_closed_close_chan.
    + apply Hp. unfold w1. cbn.
      rewrite list_lookup_insert_ne by exact Hne. exact Hj.
Qed.

Lemma tracks_Start mk sp w : tracks w (fst (Start mk sp w)).
Proof.
  destruct (cmd (m w)) as [c|] eqn:Hc.
  { rewrite (Start_conflict mk sp w c Hc). apply tracks_refl. }
  destruct mk as [dir|e]; [destruct sp as [pid|e]|].
  - rewrite (Start_spawned dir pid w Hc). apply tracks_frame; reflexivity.
  - rewrite (Start_spawn_failure dir e w Hc). apply tracks_frame; reflexivity.
  - rewrite (Start_mkdir_failure sp w e Hc). apply tracks_frame; reflexivity.
Qed.

Lemma tracks_Stop pg w : tracks w (world_of (Stop pg w)).
Proof.
  unfold Stop. destruct (cmd (m w)) as [c|]; [|apply tracks_refl].
  destruct (is_closed _ _); [apply tracks_frame; reflexivity|].
  apply tracks_trans with (close_chan (shutdown (m w)) w); [apply tracks_close_chan|].
  cbn. unfold call_hook.
  destruct (Process c); [destruct pg|]; cbn; rewrite ?m_close_chan;
    destruct (onStop _); apply tracks_frame; reflexivity.
Qed.

Lemma tracks_Cleanup pg w : tracks w (world_of (Cleanup pg w)).
Proof.
  unfold Cleanup. destruct (cleanup_stop w); [apply tracks_Stop|apply tracks_refl].
Qed.

Lemma tracks_select_enter local b w : tracks w (select_enter local b w).
Proof.
  unfold select_enter.
  destruct (is_closed (shutdown (m w)) w && _); [apply tracks_append|].
  destruct (find_sender _ _ _) as [[[r v] err]|].
  - eapply tracks_trans; [apply tracks_append|apply tracks_reader_resume].
  - destruct (is_closed _ _); apply tracks_append.
Qed.

Lemma tracks_ServePlaylist mk sp b w : tracks w (ServePlaylist mk sp b w).
Proof.
  set (w1 := set_m (set_lastRequest (clock w)) w).
  assert (T1 : tracks w w1) by (apply tracks_frame; reflexivity).
  destruct (cmd (m w)) as [c|] eqn:Hc.
  - rewrite (ServePlaylist_running mk sp b w c Hc). cbn. fold w1.
    eapply tracks_trans; [exact T1|].
    destruct (negb _); [apply tracks_select_enter|apply tracks_append].
  - rewrite (ServePlaylist_start mk sp b w Hc). cbn. fold w1.
    eapply tracks_trans; [exact T1|].
    eapply tracks_trans; [apply (tracks_Start mk sp w1)|].
    destruct (snd _); [apply tracks_append|].
    destruct (negb _); [apply tracks_select_enter|apply tracks_append].
Qed.

Lemma tracks_send_playlist r err to w w' :
  send_playlist r err to w = Some w' -> tracks w w'.
Proof.
  unfold send_playlist. intros H.
  destruct (is_closed (playlistLoad (m w)) w) eqn:Hc.
  { injection H as <-. apply tracks_frame; reflexivity. }
  destruct to as [i|].
  - destruct (requests w !! i) as [h|] eqn:Hi; [|discriminate].
    destruct (waits_on _ h) eqn:Hw; [|discriminate].
    injection H as <-. unfold reader_resume. cbn.
    change (is_closed (playlistLoad (m w)) (set_requests _ w))
      with (is_closed (playlistLoad (m w)) w).
    rewrite Hc.
    eapply tracks_trans; [apply (tracks_deliver _ (playlist (m w)) i h w Hi Hw)|].
    apply tracks_frame; reflexivity.
  - destruct (existsb _ _); [discriminate|]. injection H as <-.
    apply tracks_frame; reflexivity.
Qed.

Lemma tracks_reader_read r data err to w w' :
  reader_read r data err to w = Some w' -> tracks w w'.
Proof.
  unfold reader_read. intros H.
  destruct (gens w !! r) as [g|]; [|discriminate].
  destruct (reader g); try discriminate.
  destruct (valid_read g data err); [|discriminate]. cbn in H.
  destruct (String.length data =? 0)%nat; cbn in H.
  - injection H as <-. apply tracks_frame; reflexivity.
  - destruct (_ =? hlsMinimumSegments).
    + apply tracks_send_playlist in H.
      eapply tracks_trans; [|exact H]. apply tracks_frame; reflexivity.
    + injection H as <-. apply tracks_frame; reflexivity.
Qed.

Lemma tracks_reaper_tick j pg w w' : reaper_tick j pg w = Some w' -> tracks w w'.
Proof.
  unfold reaper_tick. intros H.
  destruct (gens w !! j) as [g|]; [|discriminate].
  destruct (reaper g); try discriminate.
  set (w1 := set_gens (alter (set_reaper Running) j) w) in *.
  assert (T1 : tracks w w1) by (apply tracks_frame; reflexivity).
  pose proof (tracks_Cleanup pg w1) as T2.
  destruct (Cleanup pg w1) as [w2|w2]; cbn in T2.
  - destruct (is_closed _ _); injection H as <-;
      (eapply tracks_trans; [exact T1|]); (eapply tracks_trans; [exact T2|]);
      apply tracks_frame; reflexivity.
  - injection H as <-.
    eapply tracks_trans; [exact T1|]. eapply tracks_trans; [exact T2|].
    apply tracks_frame; reflexivity.
Qed.

Lemma exec_tracks l w w' : exec l w = Some w' -> tracks w w'.
Proof.
  intros H. destruct l; cbn in H.
  - destruct (Z.leb_spec 0 d); [|discriminate]. injection H as <-.
    unfold tracks, waits_or_answered. cbn.
    split; [lia|]. repeat split; auto.
  - destruct (valid_mkdir mk w); [|discriminate]. injection H as <-. apply tracks_Start.
  - injection H as <-. apply tracks_Stop.
  - injection H as <-. apply tracks_Cleanup.
  - destruct (valid_mkdir mk w); [|discriminate]. injection H as <-.
    apply tracks_ServePlaylist.
  - apply (tracks_timeout i). exact H.
  - apply (tracks_reader_read r data err to). exact H.
  - apply (tracks_reaper_tick j pg). exact H.
  - apply timer_fire_frame in H. subst w'. apply tracks_frame; reflexivity.
  - injection H as <-. unfold ServeMedia. destruct (negb _); apply tracks_frame; reflexivity.
  - unfold write_segment in H.
    destruct (cmd (m w)) as [c|]; [|discriminate].
    destruct (Process c); [|discriminate].
    destruct (_ || _); [discriminate|].
    destruct (exists_path _ _); injection H as <-; apply tracks_frame; reflexivity.
  - injection H as <-. apply tracks_frame; reflexivity.
  - injection H as <-. apply tracks_frame; reflexivity.
  - injection H as <-. apply tracks_frame; reflexivity.
Qed.

Lemma run_tracks ls w w' : run ls w = Some w' -> tracks w w'.
Proof.
  revert w. induction ls as [|l ls IH]; intros w H; cbn in H.
  - injection H as <-. apply tracks_refl.
  - destruct (exec l w) as [w1|] eqn:E; [|discriminate].
    eapply tracks_trans; [apply (exec_tracks l w w1 E)|apply IH; exact H].
Qed.

(** ** ServePlaylist *)

Lemma requests_Start mk sp w : requests (fst (Start mk sp w)) = requests w.
Proof.
  destruct (cmd (m w)) as [c|] eqn:Hc.
  { rewrite (Start_conflict mk sp w c Hc). reflexivity. }
  destruct mk as [dir|e]; [destruct sp as [pid|e]|].
  - rewrite (Start_spawned dir pid w Hc). reflexivity.
  - rewrite (Start_spawn_failure dir e w Hc). reflexivity.
  - rewrite (Start_mkdir_failure sp w e Hc). reflexivity.
Qed.

Lemma requests_reader_resume_done r err w i x :
  requests w !! i = Some (HDone x) ->
  requests (reader_resume r err w) !! i = Some (HDone x).
Proof.
  intros H. unfold reader_resume. destruct (is_closed _ _); cbn; [exact H|].
  rewrite requests_close_chan, list_lookup_fmap, H. reflexivity.
Qed.

(** What becomes of the request that enters the [select]: it parks when
    no case is ready, takes the shutdown case only when that channel is
    closed, and receives only from a blocked sender or from the closed
    handoff. *)
Lemma select_enter_request local b w :
  let pl := playlistLoad (m w) in
  let sd := shutdown (m w) in
  let w' := select_enter local b w in
  let i := length (requests w) in
  (requests w' !! i = Some (HWait local pl sd (clock w + playlistTimeout))
   /\ is_closed pl w = false /\ is_closed sd w = false
   /\ find_sender pl 0%nat (gens w) = None)
  \/ (requests w' !! i = Some (HDone (ServePlaylist_resume RecvShutdown))
      /\ is_closed sd w = true)
  \/ (exists v, requests w' !! i = Some (HDone (ServePlaylist_resume (RecvPlaylist v)))
      /\ ((exists r err, find_sender pl 0%nat (gens w) = Some (r, v, err))
          \/ (v = "" /\ is_closed pl w = true))).
Proof.
  cbn. unfold select_enter.
  destruct (is_closed (shutdown (m w)) w) eqn:Hsd; cbn.
  - destruct (b || negb _) eqn:Hb.
    + right. left. cbn. split; [|reflexivity].
      apply list_lookup_middle. reflexivity.
    + right. right.
      apply orb_false_iff in Hb as [_ Hb]. apply negb_false_iff in Hb.
      destruct (find_sender _ _ _) as [[[r v] err]|] eqn:Hf.
      * exists v. split; [|left; eauto].
        apply requests_reader_resume_done. cbn. apply list_lookup_middle. reflexivity.
      * rewrite orb_false_r in Hb. rewrite Hb. exists "". split; [|right; auto].
        cbn. apply list_lookup_middle. reflexivity.
  - destruct (find_sender _ _ _) as [[[r v] err]|] eqn:Hf.
    + right. right. exists v. split; [|left; eauto].
      apply requests_reader_resume_done. cbn. apply list_lookup_middle. reflexivity.
    + destruct (is_closed (playlistLoad (m w)) w) eqn:Hpl.
      * right. right. exists "". split; [|right; auto].
        cbn. apply list_lookup_middle. reflexivity.
      * left. split; [|auto]. cbn. apply list_lookup_middle. reflexivity.
Qed.

(** The three answers of the [select] carry three different status
    codes, and only the received value is served as a playlist. *)
Lemma ServePlaylist_resume_status o :
  match o with
  | RecvPlaylist v =>
      status (ServePlaylist_resume o) = 200 /\ body (ServePlaylist_resume o) = v
  | RecvShutdown =>
      status (ServePlaylist_resume o) = 404
      /\ body (ServePlaylist_resume o) = "404 playlist not found"
  | RecvTimeout =>
      status (ServePlaylist_resume o) = 500
      /\ body (ServePlaylist_resume o) = "500 not available"
  end.
Proof. destruct o; split; reflexivity. Qed.

(** C2.  A playlist request, through [ServePlaylist] and its [select].
    - When the lazy [Start] fails, the answer is status 500 with the
      text of the error as body.
    - When the session has a subprocess and is active, the answer is
      immediate: status 200 with the current playlist.
    - Otherwise the request enters the [select]: it parks with the
      deadline [playlistTimeout] from now, or takes at once a case that
      is ready.
    - A parked request stays parked or leaves through exactly one of
      three cases: a value received from the handoff (status 200, that
      value as body), the closed shutdown channel (status 404), the
      deadline passed (status 500); an answer never changes. *)
Theorem ServePlaylist_outcomes :
  (forall w mk sp b e,
      cmd (m w) = None ->
      snd (Start mk sp (set_m (set_lastRequest (clock w)) w)) = Some e ->
      requests (ServePlaylist mk sp b w)
      = requests w ++ [HDone (mkResponse 500 [] (Error e))])
  /\ (forall w mk sp b c,
      cmd (m w) = Some c -> active (m w) = true ->
      ServePlaylist mk sp b w
      = set_requests (fun l => l ++ [HDone (mkResponse 200
            [("Content-Type", "application/vnd.apple.mpegurl"); ("Cache-Control", "no-cache")]
            (playlist (m w)))])
          (set_m (set_lastRequest (clock w)) w))
  /\ (forall w mk sp b,
      let w1 := set_m (set_lastRequest (clock w)) w in
      let ws := match cmd (m w) with
                | None => fst (Start mk sp w1)
                | Some _ => w1
                end in
      (cmd (m w) = None -> snd (Start mk sp w1) = None) ->
      active (m ws) = false ->
      let w' := ServePlaylist mk sp b w in
      let i := length (requests w) in
      let pl := playlistLoad (m ws) in
      let sd := shutdown (m ws) in
      (requests w' !! i = Some (HWait (playlist (m w)) pl sd (clock w + playlistTimeout))
       /\ is_closed pl ws = false /\ is_closed sd ws = false)
      \/ (requests w' !! i = Some (HDone (ServePlaylist_resume RecvShutdown))
          /\ is_closed sd ws = true)
      \/ (exists v, requests w' !! i = Some (HDone (ServePlaylist_resume (RecvPlaylist v)))
          /\ ((exists r err, find_sender pl 0%nat (gens ws) = Some (r, v, err))
              \/ (v = "" /\ is_closed pl ws = true))))
  /\ (forall l w w' i local pl sd dl,
      exec l w = Some w' ->
      requests w !! i = Some (HWait local pl sd dl) ->
      requests w' !! i = Some (HWait local pl sd dl)
      \/ exists o, requests w' !! i = Some (HDone (ServePlaylist_resume o))
           /\ match o with
              | RecvPlaylist v =>
                  is_closed pl w' = true
                  /\ status (ServePlaylist_resume o) = 200
                  /\ body (ServePlaylist_resume o) = v
              | RecvShutdown =>
                  is_closed sd w' = true /\ status (ServePlaylist_resume o) = 404
              | RecvTimeout =>
                  dl <= clock w' /\ status (ServePlaylist_resume o) = 500
              end)
  /\ (forall l w w' i r,
      exec l w = Some w' ->
      requests w !! i = Some (HDone r) -> requests w' !! i = Some (HDone r)).
Proof.
  split; [|split; [|split; [|split]]].
  - intros w mk sp b e Hc He.
    rewrite (ServePlaylist_start mk sp b w Hc). cbn. rewrite He. cbn.
    rewrite requests_Start. reflexivity.
  - intros w mk sp b c Hc Ha.
    rewrite (ServePlaylist_running mk sp b w c Hc). cbn. rewrite Ha. reflexivity.
  - intros w mk sp b w1 ws Hok Ha w' i pl sd.
    assert (E : w' = select_enter (playlist (m w)) b ws
                /\ requests ws = requests w /\ clock ws = clock w).
    { unfold w', ws in *. destruct (cmd (m w)) as [c|] eqn:Hc.
      - rewrite (ServePlaylist_running mk sp b w c Hc). cbn.
        cbn in Ha. rewrite Ha. auto.
      - rewrite (ServePlaylist_start mk sp b w Hc). cbn. fold w1.
        rewrite (Hok eq_refl), Ha. cbn. split; [reflexivity|].
        rewrite requests_Start. split; [reflexivity|].
        destruct (Start_effect mk sp w1) as [(c & Hc' & _)|[(_ & E)|_]].
        + cbn in Hc'. congruence.
        + rewrite E. reflexivity.
        + destruct mk as [dir|e0]; [destruct sp as [pid|e0]|].
          * rewrite (Start_spawned dir pid w1 Hc). reflexivity.
          * rewrite (Start_spawn_failure dir e0 w1 Hc). reflexivity.
          * rewrite (Start_mkdir_failure sp w1 e0 Hc). reflexivity. }
    destruct E as (E & Hr & Hk).
    pose proof (select_enter_request (playlist (m w)) b ws) as H.
    cbn in H. rewrite Hr, Hk in H. rewrite <- E in H.
    destruct H as [(H1 & H2 & H3 & _)|[H|H]]; auto.
  - intros l w w' i local pl sd dl He Hi.
    pose proof (exec_tracks l w w' He) as (_ & _ & _ & Hp).
    destruct (Hp i local pl sd dl Hi) as [Hw|(o & Ho & Hr)]; [left; exact Hw|].
    right. exists o. split; [exact Ho|].
    destruct o; cbn in Hr |- *; auto.
  - intros l w w' i r He Hi.
    pose proof (exec_tracks l w w' He) as (_ & _ & Hd & _). apply Hd. exact Hi.
Qed.

(** ** The end of a reader *)

Lemma exited_frame w w' : gens w' = gens w -> exited_stay w w'.
Proof. intros E r g Hg Hr. rewrite E. eauto. Qed.

Lemma exited_trans w1 w2 w3 : exited_stay w1 w2 -> exited_stay w2 w3 -> exited_stay w1 w3.
Proof.
  intros H12 H23 r g Hg Hr.
  destruct (H12 r g Hg Hr) as (g2 & Hg2 & Hr2). apply (H23 r g2 Hg2 Hr2).
Qed.

Lemma exited_close_chan c w : exited_stay w (close_chan c w).
Proof.
  intros r g Hg Hr. pose proof (reader_close_chan c w r) as H.
  rewrite Hg in H. cbn in H.
  destruct (gens (close_chan c w) !! r) as [g'|]; [|discriminate].
  exists g'. split; [reflexivity|]. injection H as ->.
  destruct (sender_on c g); [reflexivity|exact Hr].
Qed.

(** Changing a generation without touching its reader. *)
Lemma exited_alter_keep f j w :
  (forall g, reader (f g) = reader g) -> exited_stay w (set_gens (alter f j) w).
Proof.
  intros Hf r g Hg Hr. cbn. destruct (decide (j = r)) as [->|Hne].
  - rewrite list_lookup_alter_eq, Hg. cbn. eexists. split; [reflexivity|].
    rewrite Hf. exact Hr.
  - rewrite list_lookup_alter_ne by exact Hne. eauto.
Qed.

(** Moving the reader [j], which has not returned. *)
Lemma exited_alter_other pc j w w1 :
  exited_stay w w1 ->
  (forall g, gens w !! j = Some g -> reader g <> RExit) ->
  exited_stay w (set_gens (alter (set_reader pc) j) w1).
Proof.
  intros H1 Hj r g Hg Hr. cbn. destruct (decide (j = r)) as [->|Hne].
  - exfalso. apply (Hj g Hg Hr).
  - rewrite list_lookup_alter_ne by exact Hne. apply (H1 r g Hg Hr).
Qed.

Lemma exited_reader_resume r err w :
  (forall g, gens w !! r = Some g -> reader g <> RExit) ->
  exited_stay w (reader_resume r err w).
Proof.
  intros Hr. unfold reader_resume. destruct (is_closed _ _).
  - apply exited_alter_other; [apply exited_frame; reflexivity|exact Hr].
  - apply exited_alter_other; [apply exited_close_chan|exact Hr].
Qed.

Lemma find_sender_spec c l : forall k r v err,
  find_sender c k l = Some (r, v, err) ->
  (k <= r)%nat /\ exists g, l !! (r - k)%nat = Some g /\ reader g = RSend c v err.
Proof.
  induction l as [|g l IH]; intros k r v err H; cbn in H; [discriminate|].
  assert (Hrec : find_sender c (S k) l = Some (r, v, err) ->
            (k <= r)%nat /\ exists g0, (g :: l) !! (r - k)%nat = Some g0
                                       /\ reader g0 = RSend c v err).
  { intros H'. apply IH in H' as (Hle & g0 & Hg0 & Hr0). split; [lia|].
    exists g0. replace (r - k)%nat with (S (r - S k)) by lia. auto. }
  destruct (reader g) as [|c' v' err'|] eqn:E; try (apply Hrec; exact H).
  destruct (Nat.eqb_spec c' c) as [->|Hne]; [|apply Hrec; exact H].
  injection H as <- <- <-. split; [lia|]. exists g.
  replace (k - k)%nat with 0%nat by lia. auto.
Qed.

Lemma exited_select_enter local b w : exited_stay w (select_enter local b w).
Proof.
  unfold select_enter.
  destruct (is_closed (shutdown (m w)) w && _); [apply exited_frame; reflexivity|].
  destruct (find_sender _ _ _) as [[[r v] err]|] eqn:Hf.
  - apply find_sender_spec in Hf as (_ & g & Hg & Hr).
    replace (r - 0)%nat with r in Hg by lia.
    eapply exited_trans; [|apply exited_reader_resume].
    + apply exited_frame. reflexivity.
    + cbn. intros g0 Hg0. assert (g0 = g) by congruence. subst g0.
      rewrite Hr. discriminate.
  - destruct (is_closed _ _); apply exited_frame; reflexivity.
Qed.

Lemma exited_Start mk sp w : exited_stay w (fst (Start mk sp w)).
Proof.
  destruct (cmd (m w)) as [c|] eqn:Hc.
  { rewrite (Start_conflict mk sp w c Hc). apply exited_frame. reflexivity. }
  assert (T : forall dir p, exited_stay w (started dir p w)).
  { intros dir p r g Hg Hr. cbn. rewrite lookup_app_l by (apply lookup_lt_Some in Hg; exact Hg).
    eauto. }
  destruct mk as [dir|e]; [destruct sp as [pid|e]|].
  - rewrite (Start_spawned dir pid w Hc). apply T.
  - rewrite (Start_spawn_failure dir e w Hc). apply T.
  - rewrite (Start_mkdir_failure sp w e Hc). apply exited_frame. reflexivity.
Qed.

Lemma exited_Stop pg w : exited_stay w (world_of (Stop pg w)).
Proof.
  unfold Stop. destruct (cmd (m w)) as [c|]; [|apply exited_frame; reflexivity].
  destruct (is_closed _ _); [apply exited_frame; reflexivity|].
  apply exited_trans with (close_chan (shutdown (m w)) w); [apply exited_close_chan|].
  cbn. unfold call_hook.
  destruct (Process c); [destruct pg|]; cbn; rewrite ?m_close_chan;
    destruct (onStop _); apply exited_frame; reflexivity.
Qed.

Lemma exited_Cleanup pg w : exited_stay w (world_of (Cleanup pg w)).
Proof.
  unfold Cleanup. destruct (cleanup_stop w); [apply exited_Stop|apply exited_frame; reflexivity].
Qed.

Lemma exited_reader_read r data err to w w' :
  reader_read r data err to w = Some w' -> exited_stay w w'.
Proof.
  unfold reader_read. intros H.
  destruct (gens w !! r) as [g|] eqn:Hg; [|discriminate].
  destruct (reader g) eqn:Hr; try discriminate.
  assert (Hne : forall g0, gens w !! r = Some g0 -> reader g0 <> RExit).
  { intros g0 Hg0. assert (g0 = g) by congruence. subst g0. rewrite Hr. discriminate. }
  destruct (valid_read g data err); [|discriminate]. cbn in H.
  assert (Hplain : forall pc,
            exited_stay w (set_gens (alter (set_reader pc) r) w)).
  { intros pc. apply exited_alter_other; [apply exited_frame; reflexivity|exact Hne]. }
  destruct (String.length data =? 0)%nat; cbn in H.
  - injection H as <-. apply Hplain.
  - destruct (_ =? hlsMinimumSegments).
    + unfold send_playlist in H. cbn in H.
      destruct (is_closed _ _).
      * injection H as <-. apply exited_alter_other; [apply exited_frame; reflexivity|exact Hne].
      * destruct to as [i|].
        -- destruct (requests w !! i) as [h|]; [|discriminate].
           destruct (waits_on _ h); [|discriminate]. injection H as <-.
           eapply exited_trans; [|apply exited_reader_resume; exact Hne].
           apply exited_frame. reflexivity.
        -- destruct (existsb _ _); [discriminate|]. injection H as <-.
           apply exited_alter_other; [apply exited_frame; reflexivity|exact Hne].
    + injection H as <-.
      apply exited_alter_other; [apply exited_frame; reflexivity|exact Hne].
Qed.

Lemma exited_reaper_tick j pg w w' : reaper_tick j pg w = Some w' -> exited_stay w w'.
Proof.
  unfold reaper_tick. intros H.
  destruct (gens w !! j) as [g|]; [|discriminate].
  destruct (reaper g); try discriminate.
  set (w1 := set_gens (alter (set_reaper Running) j) w) in *.
  assert (T1 : exited_stay w w1) by (apply exited_alter_keep; reflexivity).
  pose proof (exited_Cleanup pg w1) as T2.
  destruct (Cleanup pg w1) as [w2|w2]; cbn in T2.
  - destruct (is_closed _ _); injection H as <-;
      (eapply exited_trans; [exact T1|]); (eapply exited_trans; [exact T2|]);
      apply exited_alter_keep; reflexivity.
  - injection H as <-.
    eapply exited_trans; [exact T1|]. eapply exited_trans; [exact T2|].
    change (exited_stay (raise_panic w2)
              (set_gens (alter (set_reaper Exited) j) (raise_panic w2))).
    apply exited_alter_keep. reflexivity.
Qed.

Lemma exec_exited l w w' : exec l w = Some w' -> exited_stay w w'.
Proof.
  intros H. destruct l; cbn in H.
  - destruct (0 <=? d); [|discriminate]. injection H as <-. apply exited_frame. reflexivity.
  - destruct (valid_mkdir mk w); [|discriminate]. injection H as <-. apply exited_Start.
  - injection H as <-. apply exited_Stop.
  - injection H as <-. apply exited_Cleanup.
  - destruct (valid_mkdir mk w); [|discriminate]. injection H as <-.
    set (w1 := set_m (set_lastRequest (clock w)) w).
    assert (T1 : exited_stay w w1) by (apply exited_frame; reflexivity).
    destruct (cmd (m w)) as [c|] eqn:Hc.
    + rewrite (ServePlaylist_running mk sp prefer_shutdown w c Hc). cbn. fold w1.
      eapply exited_trans; [exact T1|].
      destruct (negb _); [apply exited_select_enter|apply exited_frame; reflexivity].
    + rewrite (ServePlaylist_start mk sp prefer_shutdown w Hc). cbn. fold w1.
      eapply exited_trans; [exact T1|].
      eapply exited_trans; [apply (exited_Start mk sp w1)|].
      destruct (snd _); [apply exited_frame; reflexivity|].
      destruct (negb _); [apply exited_select_enter|apply exited_frame; reflexivity].
  - apply request_timeout_frame in H. subst w'. apply exited_frame. reflexivity.
  - apply (exited_reader_read r data err to). exact H.
  - apply (exited_reaper_tick j pg). exact H.
  - apply timer_fire_frame in H. subst w'. apply exited_frame. reflexivity.
  - injection H as <-. unfold ServeMedia. destruct (negb _); apply exited_frame; reflexivity.
  - apply write_segment_frame in H as (_ & Hg & _). apply exited_frame. exact Hg.
  - injection H as <-. apply exited_frame. reflexivity.
  - injection H as <-. apply exited_frame. reflexivity.
  - injection H as <-. apply exited_frame. reflexivity.
Qed.

Lemma run_exited ls w w' : run ls w = Some w' -> exited_stay w w'.
Proof.
  revert w. induction ls as [|l ls IH]; intros w H; cbn in H.
  - injection H as <-. apply exited_frame. reflexivity.
  - destruct (exec l w) as [w1|] eqn:E; [|discriminate].
    eapply exited_trans; [apply (exec_exited l w w1 E)|apply IH; exact H].
Qed.

(** A generation, and with it a reader, comes into being only in a step
    that calls [Start] on a session without subprocess. *)
Lemma exec_new_generation l w w' :
  exec l w = Some w' ->
  length (gens w') = length (gens w)
  \/ (cmd (m w) = None /\ calls_Start l = true
      /\ length (gens w') = S (length (gens w))).
Proof.
  intros H. destruct l; cbn in H; cbn [calls_Start].
  - destruct (0 <=? d); [|discriminate]. injection H as <-. auto.
  - destruct (valid_mkdir mk w); [|discriminate]. injection H as <-.
    destruct (Start_effect mk sp w) as [(c & _ & ->)|[(_ & ->)|(Hc & Hl & _)]]; auto.
  - injection H as <-. destruct (Stop_effect pg w) as [_ ->]. auto.
  - injection H as <-. destruct (Cleanup_effect pg w) as [_ ->]. auto.
  - destruct (valid_mkdir mk w); [|discriminate]. injection H as <-.
    destruct (ServePlaylist_effect mk sp prefer_shutdown w) as [_ ->].
    destruct (cmd (m w)) as [c|] eqn:Hc; [auto|].
    destruct (Start_effect mk sp (set_m (set_lastRequest (clock w)) w))
      as [(c & _ & ->)|[(_ & ->)|(_ & Hl & _)]]; auto.
  - apply request_timeout_frame in H. subst w'. auto.
  - left. apply (length_gens_reader_read _ _ _ _ _ _ H).
  - apply reaper_tick_effect in H as [_ ->]. auto.
  - apply timer_fire_frame in H. subst w'. auto.
  - injection H as <-. unfold ServeMedia. destruct (negb _); auto.
  - apply write_segment_frame in H as (_ & -> & _). auto.
  - injection H as <-. auto.
  - injection H as <-. auto.
  - injection H as <-. auto.
Qed.

(** C4.  Every read that returns bytes replaces the playlist by exactly
    those bytes and adds one to the counter ([int] addition; plainly one
    more below the largest [int]).  A read that returns an error carries
    no byte and ends the reader with nothing else changed; a reader that
    has returned never leaves that state in any later step; and the
    number of generations, hence of readers, changes only in a step that
    calls [Start] on a session without subprocess. *)
Theorem reader_replaces_playlist_and_stops_on_error :
  (forall w r data err to w',
      exec (LRead r data err to) w = Some w' -> data <> "" ->
      playlist (m w') = data
      /\ sequence (m w') = int_add (sequence (m w)) 1
      /\ (minInt <= sequence (m w) < maxInt -> sequence (m w') = sequence (m w) + 1))
  /\ (forall w r data e to w',
      exec (LRead r data (Some e) to) w = Some w' ->
      data = "" /\ w' = set_gens (alter (set_reader RExit) r) w)
  /\ (forall ls w w' r g,
      run ls w = Some w' -> gens w !! r = Some g -> reader g = RExit ->
      exists g', gens w' !! r = Some g' /\ reader g' = RExit)
  /\ (forall l w w',
      exec l w = Some w' -> length (gens w') <> length (gens w) ->
      cmd (m w) = None /\ calls_Start l = true
      /\ length (gens w') = S (length (gens w))).
Proof.
  split; [|split; [|split]].
  - intros w r data err to w' H Hne. cbn in H.
    destruct (reader_read_nonempty _ _ _ _ _ _ H Hne) as (Hp & Hs & _).
    split; [exact Hp|]. split; [exact Hs|].
    intros Hb. rewrite Hs. unfold int_add. apply wrap_int_id.
    unfold minInt, maxInt in *. lia.
  - intros w r data e to w' H. cbn in H.
    pose proof (reader_read_error_empty _ _ _ _ _ _ H) as ->.
    split; [reflexivity|]. apply (reader_read_empty _ _ _ _ _ H).
  - intros ls w w' r g H Hg Hr. apply (run_exited ls w w' H r g Hg Hr).
  - intros l w w' H Hn.
    destruct (exec_new_generation l w w' H) as [E|E]; [contradiction|exact E].
Qed.

(** C1, as the code has it.  When the read that takes the counter from
    [hlsMinimumSegments - 1] to [hlsMinimumSegments] finds a request
    parked on the open handoff, that one step marks the session active,
    answers the request the send reaches with status 200 and exactly
    the chunk just read, which is the current playlist, answers no
    other request with it, and leaves the handoff closed.  Within a
    generation, and short of [2^63] reads, the session is marked active
    at most once.  Once set, the flag is still set in every later world
    in which no new generation has begun. *)
Theorem activation_with_parked_request :
  (forall w r g data err j hj,
      gens w !! r = Some g -> reader g = RRead -> valid_read g data err = true ->
      data <> "" ->
      sequence (m w) = hlsMinimumSegments - 1 ->
      is_closed (playlistLoad (m w)) w = false ->
      requests w !! j = Some hj -> waits_on (playlistLoad (m w)) hj = true ->
      (exists w', exec (LRead r data err (Some j)) w = Some w')
      /\ forall to w',
          exec (LRead r data err to) w = Some w' ->
          exists i h,
            to = Some i /\ requests w !! i = Some h
            /\ waits_on (playlistLoad (m w)) h = true
            /\ sequence (m w') = hlsMinimumSegments
            /\ active (m w') = true
            /\ playlist (m w') = data
            /\ requests w' !! i = Some (HDone (playlist_response data))
            /\ (forall k, k <> i ->
                  requests w' !! k = wake_request (playlistLoad (m w)) <$> (requests w !! k))
            /\ (forall k, k <> i ->
                  requests w' !! k = Some (HDone (playlist_response data)) ->
                  requests w !! k = Some (HDone (playlist_response data)))
            /\ is_closed (playlistLoad (m w')) w' = true)
  /\ (forall ls w w',
      run ls w = Some w' -> length (gens w') = length (gens w) ->
      0 <= sequence (m w) -> sequence (m w) + Z.of_nat (length ls) <= maxInt ->
      (activations ls w <= 1)%nat)
  /\ (forall ls w w',
      run ls w = Some w' -> active (m w) = true ->
      length (gens w') = length (gens w) -> active (m w') = true).
Proof.
  split; [|split].
  - intros w r g data err j hj Hg Hr Hv Hne Hseq Hopen Hj Hwj.
    assert (Hadd : int_add (sequence (m w)) 1 = hlsMinimumSegments).
    { rewrite Hseq. reflexivity. }
    split.
    { destruct (activation_with_waiter r g data err j hj w Hg Hr Hv Hne Hadd Hopen Hj Hwj)
        as (w' & He & _). exists w'. exact He. }
    intros to w' He. cbn in He.
    destruct (activation_reaches_a_waiter r g data err j hj to w w'
                Hg Hr Hv Hne Hadd Hopen Hj Hwj He) as (i & h & -> & Hi & Hw).
    destruct (activation_with_waiter r g data err i h w Hg Hr Hv Hne Hadd Hopen Hi Hw)
      as (w'' & He' & Hm & Hreq & Hch & _).
    assert (w'' = w') by congruence. subst w''.
    assert (Hothers : forall k, k <> i ->
              requests w' !! k = wake_request (playlistLoad (m w)) <$> (requests w !! k)).
    { intros k Hk. rewrite Hreq, list_lookup_fmap, list_lookup_insert_ne by congruence.
      reflexivity. }
    exists i, h. split; [reflexivity|]. split; [exact Hi|]. split; [exact Hw|].
    rewrite Hm. cbn.
    split; [reflexivity|]. split; [reflexivity|]. split; [reflexivity|].
    split; [|split; [exact Hothers|split]].
    + rewrite Hreq, list_lookup_fmap,
        list_lookup_insert_eq by (apply lookup_lt_Some in Hi; exact Hi).
      reflexivity.
    + intros k Hk Hd. rewrite (Hothers k Hk) in Hd.
      destruct (requests w !! k) as [[loc pl sd dl|x]|]; cbn in Hd; try discriminate.
      * destruct (Nat.eqb pl _).
        -- injection Hd as Hd. symmetry in Hd. contradiction.
        -- destruct (Nat.eqb sd _); discriminate.
      * exact Hd.
    + unfold is_closed. rewrite Hch. cbn. rewrite Nat.eqb_refl. reflexivity.
  - intros ls w w' H Hl H0 Hmax.
    apply (activations_at_most_once ls w w' H Hl H0 Hmax).
  - intros ls w w' H Ha Hl. apply (run_active ls w w' H Ha Hl).
Qed.

(** C9.  Two requests are parked on the open handoff when the read
    takes the counter to [hlsMinimumSegments].  However the step runs,
    the send reaches exactly one parked request, which is answered with
    the chunk; every other request parked on the handoff is answered in
    that same step from the closed handoff: status 200 and an empty
    body, which is not the current playlist. *)
Theorem other_waiters_get_empty_playlist
    (w : World) (r : PipeId) (g : Generation) (data : string) (err : option error)
    (j1 j2 : nat) (h1 h2 : HandlerPC) :
  gens w !! r = Some g -> reader g = RRead -> valid_read g data err = true ->
  data <> "" ->
  sequence (m w) = hlsMinimumSegments - 1 ->
  is_closed (playlistLoad (m w)) w = false ->
  requests w !! j1 = Some h1 -> waits_on (playlistLoad (m w)) h1 = true ->
  requests w !! j2 = Some h2 -> waits_on (playlistLoad (m w)) h2 = true ->
  j1 <> j2 ->
  (exists w', exec (LRead r data err (Some j1)) w = Some w')
  /\ forall to w',
      exec (LRead r data err to) w = Some w' ->
      exists i,
        to = Some i
        /\ requests w' !! i = Some (HDone (playlist_response data))
        /\ playlist (m w') = data
        /\ is_closed (playlistLoad (m w')) w' = true
        /\ forall k hk,
             k <> i -> requests w !! k = Some hk ->
             waits_on (playlistLoad (m w)) hk = true ->
             exists rk, requests w' !! k = Some (HDone rk)
                        /\ status rk = 200 /\ body rk = ""
                        /\ body rk <> playlist (m w').
Proof.
  intros Hg Hr Hv Hne Hseq Hopen Hj1 Hw1 Hj2 Hw2 Hj.
  assert (Hadd : int_add (sequence (m w)) 1 = hlsMinimumSegments).
  { rewrite Hseq. reflexivity. }
  split.
  { destruct (activation_with_waiter r g data err j1 h1 w Hg Hr Hv Hne Hadd Hopen Hj1 Hw1)
      as (w' & He & _). exists w'. exact He. }
  intros to w' He. cbn in He.
  destruct (activation_reaches_a_waiter r g data err j1 h1 to w w'
              Hg Hr Hv Hne Hadd Hopen Hj1 Hw1 He) as (i & h & -> & Hi & Hw).
  destruct (activation_with_waiter r g data err i h w Hg Hr Hv Hne Hadd Hopen Hi Hw)
    as (w'' & He' & Hm & Hreq & Hch & _).
  assert (w'' = w') by congruence. subst w''.
  exists i. split; [reflexivity|]. split; [|split; [|split]].
  - rewrite Hreq, list_lookup_fmap,
      list_lookup_insert_eq by (apply lookup_lt_Some in Hi; exact Hi).
    reflexivity.
  - rewrite Hm. reflexivity.
  - rewrite Hm. cbn. unfold is_closed. rewrite Hch. cbn.
    rewrite Nat.eqb_refl. reflexivity.
  - intros k hk Hk Hkk Hwk. exists (playlist_response "").
    split; [|split; [reflexivity|split; [reflexivity|]]].
    + rewrite Hreq, list_lookup_fmap, list_lookup_insert_ne by congruence.
      rewrite Hkk. cbn. destruct hk as [loc pl sd dl|x]; [|discriminate].
      cbn in Hwk |- *. rewrite Hwk. reflexivity.
    + rewrite Hm. cbn. congruence.
Qed.

(** ** A generation in which nobody waits *)

(** The second revision arrives when no request is parked: the read is
    enabled, takes the counter to [hlsMinimumSegments] and marks the
    session active, but the reader blocks in the send; no request
    receives the playlist and the handoff stays open, whatever the
    scheduler does. *)
Lemma activation_without_waiter_blocks :
  exists w,
    run slow_start (New 0 []) = Some w
    /\ sequence (m w) = hlsMinimumSegments - 1
    /\ (exists w',
          exec (LRead 0 "#EXTM3U rev2" None None) w = Some w'
          /\ sequence (m w') = hlsMinimumSegments
          /\ active (m w') = true
          /\ is_closed (playlistLoad (m w')) w' = false
          /\ requests w' = [HDone (ServePlaylist_resume RecvTimeout)]
          /\ reader <$> (gens w' !! 0%nat)
             = Some (RSend (playlistLoad (m w')) "#EXTM3U rev2" None))
    /\ ~ hands_off_at_activation w 0 "#EXTM3U rev2" None.
Proof.
  eexists. split; [vm_compute; reflexivity|].
  split; [reflexivity|]. split.
  - eexists. split; [vm_compute; reflexivity|]. repeat split.
  - intros (to & w' & i & He & _ & _ & Hi & Hc).
    destruct to as [[|k]|]; vm_compute in He; try discriminate.
    injection He as <-. vm_compute in Hc. discriminate.
Qed.

(** ** The two ways Start can fail *)

Arguments Start : simpl never.

(** C6.  From a session without subprocess.  When [os.MkdirTemp] fails,
    [Start] returns that error unchanged, the handle stays nil and the
    next [Start] goes through.  When [cmd.Start] fails, [Start] returns
    that error unchanged too, but the handle is set: the session is not
    un-started, and every next [Start] fails with the conflict error. *)
Theorem Start_failure_paths (w : World) (dir : string) (e : error) (pid : Pid) :
  cmd (m w) = None ->
  (forall sp,
      snd (Start (MkdirErr e) sp w) = Some e
      /\ cmd (m (fst (Start (MkdirErr e) sp w))) = None
      /\ snd (Start (MkdirOk dir) (SpawnOk pid) (fst (Start (MkdirErr e) sp w))) = None)
  /\ (snd (Start (MkdirOk dir) (SpawnErr e) w) = Some e
      /\ cmd (m (fst (Start (MkdirOk dir) (SpawnErr e) w))) <> None
      /\ forall mk sp,
           snd (Start mk sp (fst (Start (MkdirOk dir) (SpawnErr e) w)))
           = Some (errors_New "has already started")).
Proof.
  intros Hc. split.
  - intros sp. rewrite (Start_mkdir_failure sp w e Hc). cbn.
    split; [reflexivity|]. split; [exact Hc|].
    rewrite (Start_spawned dir pid (set_m (set_tempdir "") w) Hc). reflexivity.
  - rewrite (Start_spawn_failure dir e w Hc). cbn.
    split; [reflexivity|]. split; [discriminate|].
    intros mk sp. erewrite Start_conflict; reflexivity.
Qed.

(** ** The path of a media request *)

Lemma after_last_slash_no_slash s : contains_slash (after_last_slash s) = false.
Proof.
  induction s as [|a s IH]; cbn; [reflexivity|].
  destruct (contains_slash s) eqn:E; [exact IH|].
  destruct (Ascii.eqb a "/") eqn:A; cbn; [exact E|].
  rewrite A, E. reflexivity.
Qed.

(** [path.Base] returns one element: it holds no slash, unless it is
    the root. *)
Lemma Base_one_element p : Base p = "/" \/ contains_slash (Base p) = false.
Proof.
  unfold Base. destruct (String.eqb p ""); [right; reflexivity|].
  destruct (String.eqb (after_last_slash _) "") eqn:E; [left; reflexivity|].
  right. apply after_last_slash_no_slash.
Qed.

Lemma append_cons a s t : String a s +:+ t = String a (s +:+ t).
Proof. reflexivity. Qed.

Lemma append_assoc s t u : (s +:+ t) +:+ u = s +:+ (t +:+ u).
Proof.
  induction s as [|a s IH]; [reflexivity|]. rewrite !append_cons, IH. reflexivity.
Qed.

Lemma split_slash_nonempty s : exists e rest, split_slash s = e :: rest.
Proof.
  induction s as [|a s (e & rest & IH)]; cbn; [eauto|].
  rewrite IH. destruct (Ascii.eqb a "/"); eauto.
Qed.

Lemma split_slash_app a b :
  split_slash (a +:+ "/" +:+ b) = split_slash a ++ split_slash b.
Proof.
  induction a as [|c a IH].
  - change ("" +:+ "/" +:+ b) with (String "/" b). cbn.
    destruct (split_slash_nonempty b) as (e & rest & ->). reflexivity.
  - rewrite append_cons. cbn. rewrite IH.
    destruct (split_slash_nonempty a) as (e & rest & ->). cbn.
    destruct (Ascii.eqb c "/"); reflexivity.
Qed.

Lemma split_slash_no_slash s : contains_slash s = false -> split_slash s = [s].
Proof.
  induction s as [|a s IH]; cbn; [reflexivity|].
  intros H. apply orb_false_iff in H as [Ha Hs]. rewrite (IH Hs), Ha. reflexivity.
Qed.

Lemma concat_snoc l x :
  l <> [] -> String.concat "/" (l ++ [x]) = String.concat "/" l +:+ "/" +:+ x.
Proof.
  induction l as [|a l IH]; [congruence|]. intros _.
  destruct l as [|b l]; [reflexivity|].
  change (String.concat "/" ((a :: b :: l) ++ [x]))
    with (a +:+ "/" +:+ String.concat "/" ((b :: l) ++ [x])).
  rewrite IH by discriminate.
  change (String.concat "/" (a :: b :: l)) with (a +:+ "/" +:+ String.concat "/" (b :: l)).
  rewrite !append_assoc. reflexivity.
Qed.

Lemma has_prefix_append p s : has_prefix p (p +:+ s) = true.
Proof.
  induction p as [|a p IH]; [reflexivity|]. rewrite append_cons. cbn.
  rewrite Ascii.eqb_refl. exact IH.
Qed.

Lemma within_self p : within p p = true.
Proof. unfold within. rewrite String.eqb_refl. reflexivity. Qed.

Lemma within_child p name : within p (p +:+ "/" +:+ name) = true.
Proof.
  unfold within. rewrite <- append_assoc. rewrite has_prefix_append. apply orb_true_r.
Qed.

Lemma Clean_rooted p :
  has_prefix "/" p = true -> Clean p = "/" +:+ String.concat "/" (kept p).
Proof.
  intros H. unfold Clean, kept. destruct p as [|a p]; [discriminate|].
  cbn [String.eqb]. rewrite H. reflexivity.
Qed.

Lemma Base_nonempty p : Base p <> "".
Proof.
  unfold Base. destruct (String.eqb p ""); [discriminate|].
  destruct (String.eqb_spec (after_last_slash (strip_trailing_slashes p)) "");
    [discriminate|assumption].
Qed.

Lemma Join_two dir name : dir <> "" -> Join [dir; name] = Clean (dir +:+ "/" +:+ name).
Proof.
  intros H. unfold Join. cbn. destruct (String.eqb_spec dir ""); [contradiction|].
  reflexivity.
Qed.

Lemma rooted_append dir s :
  has_prefix "/" dir = true -> has_prefix "/" (dir +:+ s) = true.
Proof. destruct dir as [|a d]; [discriminate|]. rewrite append_cons. cbn. auto. Qed.

Lemma kept_child dir name :
  kept (dir +:+ "/" +:+ name)
  = rev (fold_left (clean_elem true) (split_slash name)
           (fold_left (clean_elem true) (split_slash dir) [])).
Proof. unfold kept. rewrite split_slash_app, fold_left_app. reflexivity. Qed.

(** Joining a clean absolute directory with one element other than
    [..] stays within the directory. *)
Lemma Join_within dir name :
  has_prefix "/" dir = true -> Clean dir = dir -> dir <> "/" ->
  (name = "/" \/ contains_slash name = false) -> name <> "" -> name <> ".." ->
  within dir (Join [dir; name]) = true.
Proof.
  intros Hr Hc Hroot Hname Hne Hdd.
  assert (Hd : dir <> "") by (destruct dir; discriminate).
  rewrite (Join_two dir name Hd).
  rewrite (Clean_rooted _ (rooted_append dir _ Hr)), kept_child.
  rewrite (Clean_rooted dir Hr) in Hc. unfold kept in Hc.
  set (out := fold_left (clean_elem true) (split_slash dir) []) in *.
  destruct Hname as [->|Hns].
  - cbn. rewrite Hc. apply within_self.
  - rewrite (split_slash_no_slash name Hns). cbn. unfold clean_elem.
    destruct (String.eqb_spec name ""); [contradiction|].
    destruct (String.eqb_spec name ".").
    + rewrite Hc. apply within_self.
    + destruct (String.eqb_spec name ".."); [contradiction|].
      cbn. rewrite concat_snoc.
      * rewrite <- append_assoc, Hc. apply within_child.
      * intros E. apply Hroot. rewrite <- Hc, E. reflexivity.
Qed.

(** C7.  [ServeMedia] keeps only the last element of the request URI,
    which holds no slash, and for a working directory that is a clean
    absolute path the resolved path lies within it whenever that element
    is not [..].  But the element can be [..]: for the URI
    [/stream/seg0.ts?x=/..] the resolved path is [/tmp], the parent of
    the working directory, which is not within it, and the request is
    handed to [http.ServeFile] with that path. *)
Theorem ServeMedia_parent_escapes :
  (forall x uri,
      media_path x uri = Join [tempdir x; Base uri]
      /\ (Base uri = "/" \/ contains_slash (Base uri) = false))
  /\ (forall x uri,
      has_prefix "/" (tempdir x) = true -> Clean (tempdir x) = tempdir x ->
      tempdir x <> "/" -> Base uri <> ".." ->
      within (tempdir x) (media_path x uri) = true)
  /\ tempdir (m media_world) = "/tmp/go-transcode-hls123"
  /\ Base "/stream/seg0.ts?x=/.." = ".."
  /\ media_path (m media_world) "/stream/seg0.ts?x=/.." = "/tmp"
  /\ within (tempdir (m media_world)) "/tmp" = false
  /\ snd (ServeMedia "/stream/seg0.ts?x=/.." media_world)
     = MediaServeFile
         [("Content-Type", "application/vnd.apple.mpegurl"); ("Cache-Control", "no-cache")]
         "/tmp"
  /\ media_path (m media_world) "/stream/.." = "/tmp".
Proof.
  split; [|split].
  - intros x uri. split; [reflexivity|apply Base_one_element].
  - intros x uri Hr Hc Hroot Hdd. unfold media_path.
    apply Join_within; auto using Base_one_element, Base_nonempty.
  - repeat split; vm_compute; reflexivity.
Qed.

(** ** Removing the working directory *)

Lemma RemoveAll_removes p q files :
  p <> "" -> within p q = true -> existsb (String.eqb q) (RemoveAll p files) = false.
Proof.
  intros Hp Hq. unfold RemoveAll.
  destruct (String.eqb_spec p ""); [contradiction|].
  destruct (existsb _ _) eqn:E; [|reflexivity].
  apply existsb_exists in E as (x & Hx & Hqx).
  apply String.eqb_eq in Hqx. subst x.
  apply filter_In in Hx as [_ Hx]. rewrite Hq in Hx. discriminate.
Qed.

(** C8.  When a session whose subprocess runs is stopped and no [Start]
    follows within [removeDelay], the timer armed by [Stop] removes the
    working directory of the stopped generation and everything below
    it.  When a [Start] does follow within the delay, the timer removes
    the directory [m.tempdir] names when it fires: the directory of the
    new generation is deleted, with the subprocess running in it, and
    the directory of the stopped generation stays. *)
Theorem Stop_removes_directory_named_at_fire_time :
  (forall w c pid pg,
      cmd (m w) = Some c -> Process c = Some pid ->
      is_closed (shutdown (m w)) w = false ->
      tempdir (m w) <> "" ->
      exists w',
        run [LStop pg; LAdvance removeDelay; LTimer (length (timers w))] w = Some w'
        /\ forall q, within (tempdir (m w)) q = true -> exists_path q w' = false)
  /\ (exists w',
        run restart_within_delay (New 0 []) = Some w'
        /\ clock w' = removeDelay
        /\ fs w' = ["/tmp/go-transcode-hls1"; "/tmp/go-transcode-hls1/seg0.ts"]
        /\ tempdir (m w') = "/tmp/go-transcode-hls2"
        /\ (exists c, cmd (m w') = Some c /\ Dir c = "/tmp/go-transcode-hls2"
                      /\ Process c = Some 4343)
        /\ exists_path "/tmp/go-transcode-hls2" w' = false
        /\ timers w' = []).
Proof.
  split.
  - intros w c pid pg Hc Hp Ho Ht.
    destruct (Stop_running pg w c pid Hc Hp Ho)
      as (w1 & HS & _ & Htd & _ & Htm & _ & Hk).
    cbn. rewrite HS. cbn.
    assert (Hrd : (0 <=? removeDelay) = true) by reflexivity.
    rewrite Hrd. unfold timer_fire. cbn.
    rewrite Htm, list_lookup_middle by reflexivity.
    rewrite Hk, Z.leb_refl.
    eexists. split; [reflexivity|].
    intros q Hq. unfold exists_path. cbn. rewrite Htd.
    apply RemoveAll_removes; assumption.
  - eexists. split; [vm_compute; reflexivity|].
    repeat split. eexists. repeat split.
Qed.

(** * The theorems at concrete worlds *)

Ltac by_compute :=
  vm_compute; first [reflexivity | discriminate | (intros; discriminate)].

Lemma Cleanup_two_tier_idle_policy_witness :
  Cleanup None idle_world = Stop None idle_world
  /\ Cleanup None active_world = Return active_world
  /\ exists w', Cleanup None idle_world = Return w' /\ cmd (m w') = None
       /\ kills w' = kills idle_world ++ [KillProcess 4242].
Proof.
  pose proof (Cleanup_two_tier_idle_policy idle_world None) as H.
  pose proof (Cleanup_two_tier_idle_policy active_world None) as H'.
  cbv zeta in H, H'.
  destruct H as (_ & H1 & _ & H4). destruct H' as (_ & _ & H3 & _).
  assert (He : active (m idle_world) = true
               /\ activeIdleTimeout < clock idle_world - lastRequest (m idle_world)).
  { split; by_compute. }
  split; [|split].
  - apply H1. left. exact He.
  - apply H3. intros [[_ Hlt]|[Ha _]]; [vm_compute in Hlt|vm_compute in Ha]; discriminate.
  - destruct (H4 (mkCmd "/tmp/go-transcode-hls1" LogWriter 0%nat true (Some 4242)) 4242)
      as (w' & HC & Hiff & Hk); try by_compute.
    exists w'. split; [exact HC|]. split; [apply Hiff|apply Hk]; left; exact He.
Defined.

Lemma Start_twice_conflict_witness :
  exists e,
    Start (MkdirOk "/tmp/go-transcode-hls2") (SpawnOk 4343) active_world
    = (active_world, Some e)
    /\ Error e = "has already started".
Proof.
  apply (Start_twice_conflict active_world
           (mkCmd "/tmp/go-transcode-hls1" LogWriter 0%nat true (Some 4242))).
  by_compute.
Defined.

Lemma spawn_failure_bricks_session_witness :
  cmd (m (New 0 [])) = None
  /\ (let w1 := fst (Start (MkdirOk "/tmp/go-transcode-hls1")
                           (SpawnErr (mkError "exec: no such file")) (New 0 [])) in
      snd (Start (MkdirOk "/tmp/go-transcode-hls1")
                 (SpawnErr (mkError "exec: no such file")) (New 0 []))
      = Some (mkError "exec: no such file")
      /\ exists c, cmd (m w1) = Some c /\ Process c = None
         /\ forall w', reachable w1 w' ->
              cmd (m w') = Some c
              /\ (forall mk sp, Start mk sp w' = (w', Some ErrAlreadyStarted))
              /\ (forall pg, cmd (m (world_of (Stop pg w'))) = Some c)).
Proof.
  split; [reflexivity|].
  apply (spawn_failure_bricks_session (New 0 []) "/tmp/go-transcode-hls1"
           (mkError "exec: no such file")).
  reflexivity.
Defined.

Lemma Start_failure_paths_witness :
  cmd (m (New 0 [])) = None
  /\ snd (Start (MkdirOk "/tmp/go-transcode-hls1")
                (SpawnErr (mkError "exec: no such file")) (New 0 []))
     = Some (mkError "exec: no such file")
  /\ cmd (m (fst (Start (MkdirOk "/tmp/go-transcode-hls1")
                        (SpawnErr (mkError "exec: no such file")) (New 0 [])))) <> None
  /\ snd (Start (MkdirOk "/tmp/go-transcode-hls2") (SpawnOk 4343)
            (fst (Start (MkdirOk "/tmp/go-transcode-hls1")
                        (SpawnErr (mkError "exec: no such file")) (New 0 []))))
     = Some (errors_New "has already started").
Proof.
  split; [reflexivity|].
  destruct (Start_failure_paths (New 0 []) "/tmp/go-transcode-hls1"
              (mkError "exec: no such file") 4242 eq_refl) as (_ & H1 & H2 & H3).
  split; [exact H1|]. split; [exact H2|]. apply H3.
Defined.

Lemma activation_with_parked_request_witness :
  (exists w', exec (LRead 0 "#EXTM3U rev2" None (Some 0%nat)) parked_world = Some w')
  /\ (forall to w',
        exec (LRead 0 "#EXTM3U rev2" None to) parked_world = Some w' ->
        to = Some 0%nat
        /\ active (m w') = true
        /\ requests w' !! 0%nat = Some (HDone (playlist_response "#EXTM3U rev2"))
        /\ is_closed (playlistLoad (m w')) w' = true)
  /\ (activations [LRead 0 "#EXTM3U rev2" None (Some 0%nat);
                   LRead 0 "#EXTM3U rev3" None None] parked_world <= 1)%nat
  /\ active (m (world_after [LRead 0 "#EXTM3U rev3" None None; LStop None] active_world))
     = true.
Proof.
  destruct activation_with_parked_request as (Ha & Hb & Hc).
  destruct (Ha parked_world 0%nat (mkGen false RRead (Parked 3%nat))
              "#EXTM3U rev2" None 0%nat
              (HWait "" 2%nat 3%nat 20000000000))
    as (Hex & Hall); try by_compute.
  split; [exact Hex|]. split; [|split].
  - intros to w' He. destruct (Hall to w' He) as (i & h & -> & Hi & _ & _ & A & _ & D & _ & _ & C).
    destruct i as [|i]; [auto|]. vm_compute in Hi. discriminate.
  - apply (Hb _ parked_world
             (world_after [LRead 0 "#EXTM3U rev2" None (Some 0%nat);
                           LRead 0 "#EXTM3U rev3" None None] parked_world));
      by_compute.
  - apply (Hc [LRead 0 "#EXTM3U rev3" None None; LStop None] active_world); by_compute.
Defined.

Lemma other_waiters_get_empty_playlist_witness :
  (exists w', exec (LRead 0 "#EXTM3U rev2" None (Some 0%nat)) two_parked_world = Some w')
  /\ forall to w',
      exec (LRead 0 "#EXTM3U rev2" None to) two_parked_world = Some w' ->
      (to = Some 0%nat
       /\ requests w' !! 0%nat = Some (HDone (playlist_response "#EXTM3U rev2"))
       /\ requests w' !! 1%nat = Some (HDone (playlist_response "")))
      \/ (to = Some 1%nat
          /\ requests w' !! 1%nat = Some (HDone (playlist_response "#EXTM3U rev2"))
          /\ requests w' !! 0%nat = Some (HDone (playlist_response ""))).
Proof.
  destruct (other_waiters_get_empty_playlist two_parked_world 0%nat
              (mkGen false RRead (Parked 3%nat)) "#EXTM3U rev2" None 0%nat 1%nat
              (HWait "" 2%nat 3%nat 20000000000) (HWait "" 2%nat 3%nat 20000000000))
    as (Hex & Hall); try by_compute.
  split; [exact Hex|].
  intros to w' He. destruct (Hall to w' He) as (i & -> & Hi & _ & _ & Hothers).
  destruct i as [|[|i]].
  - left. split; [reflexivity|]. split; [exact Hi|].
    destruct (Hothers 1%nat (HWait "" 2%nat 3%nat 20000000000))
      as ([s hd b] & Hr & Hs & Hb & _); try by_compute.
    cbn in Hs, Hb. subst s b. vm_compute in He. injection He as <-.
    vm_compute. reflexivity.
  - right. split; [reflexivity|]. split; [exact Hi|].
    destruct (Hothers 0%nat (HWait "" 2%nat 3%nat 20000000000))
      as ([s hd b] & Hr & Hs & Hb & _); try by_compute.
    vm_compute in He. injection He as <-. vm_compute. reflexivity.
  - vm_compute in He. discriminate.
Defined.

Lemma reader_replaces_playlist_and_stops_on_error_witness :
  playlist (m (world_after [LRead 0 "#EXTM3U rev2" None (Some 0%nat)] parked_world))
  = "#EXTM3U rev2"
  /\ sequence (m (world_after [LRead 0 "#EXTM3U rev2" None (Some 0%nat)] parked_world))
     = sequence (m parked_world) + 1
  /\ world_after [LRead 0 "" (Some (mkError "EOF")) None] active_world
     = set_gens (alter (set_reader RExit) 0%nat) active_world
  /\ (exists g',
        gens (world_after [LAdvance Second; LStop None]
                (world_after [LRead 0 "" (Some (mkError "EOF")) None] active_world))
          !! 0%nat = Some g'
        /\ reader g' = RExit)
  /\ calls_Start (LServePlaylist (MkdirOk "/tmp/go-transcode-hls1") (SpawnOk 4242) false)
     = true.
Proof.
  destruct reader_replaces_playlist_and_stops_on_error as (H1 & H2 & H3 & H4).
  destruct (H1 parked_world 0%nat "#EXTM3U rev2" None (Some 0%nat)
              (world_after [LRead 0 "#EXTM3U rev2" None (Some 0%nat)] parked_world))
    as (Hp & _ & Hs); try by_compute.
  split; [exact Hp|]. split.
  { apply Hs. split; by_compute. }
  split.
  { apply (H2 active_world 0%nat "" (mkError "EOF") None). by_compute. }
  split.
  { apply (H3 [LAdvance Second; LStop None]
              (world_after [LRead 0 "" (Some (mkError "EOF")) None] active_world)
              _ 0%nat (mkGen false RExit (Parked 3%nat))); by_compute. }
  apply (H4 (LServePlaylist (MkdirOk "/tmp/go-transcode-hls1") (SpawnOk 4242) false)
            (New 0 [])
            (world_after [LServePlaylist (MkdirOk "/tmp/go-transcode-hls1")
                            (SpawnOk 4242) false] (New 0 []))); by_compute.
Defined.

Lemma ServePlaylist_outcomes_witness :
  requests (ServePlaylist (MkdirErr (mkError "mkdir /tmp: read-only file system"))
              (SpawnOk 4242) false (New 0 []))
  = [HDone (mkResponse 500 [] "mkdir /tmp: read-only file system")]
  /\ requests (ServePlaylist (MkdirErr (mkError "unused")) (SpawnOk 0) false active_world)
       !! 1%nat
     = Some (HDone (mkResponse 200
               [("Content-Type", "application/vnd.apple.mpegurl");
                ("Cache-Control", "no-cache")]
               "#EXTM3U rev2"))
  /\ requests (ServePlaylist (MkdirOk "/tmp/go-transcode-hls1") (SpawnOk 4242) false
                 (New 0 [])) !! 0%nat
     = Some (HWait "" 2%nat 3%nat playlistTimeout)
  /\ (exists o,
        requests (world_after [LStop None] parked_world) !! 0%nat
        = Some (HDone (ServePlaylist_resume o))
        /\ status (ServePlaylist_resume o) = 404)
  /\ (exists o,
        requests (world_after [LAdvance playlistTimeout; LTimeout 0] parked_world) !! 0%nat
        = Some (HDone (ServePlaylist_resume o))
        /\ status (ServePlaylist_resume o) = 500)
  /\ requests (world_after [LStop None] active_world) !! 0%nat
     = requests active_world !! 0%nat.
Proof.
  destruct ServePlaylist_outcomes as (H1 & H2 & H3 & H4 & H5).
  split.
  { apply (H1 (New 0 []) (MkdirErr (mkError "mkdir /tmp: read-only file system"))
              (SpawnOk 4242) false (mkError "mkdir /tmp: read-only file system"));
      by_compute. }
  split.
  { rewrite (H2 active_world (MkdirErr (mkError "unused")) (SpawnOk 0) false
               (mkCmd "/tmp/go-transcode-hls1" LogWriter 0%nat true (Some 4242)));
      by_compute. }
  split.
  { assert (S1 : cmd (m (New 0 [])) = None ->
                 snd (Start (MkdirOk "/tmp/go-transcode-hls1") (SpawnOk 4242)
                        (set_m (set_lastRequest (clock (New 0 []))) (New 0 []))) = None)
      by by_compute.
    destruct (H3 (New 0 []) (MkdirOk "/tmp/go-transcode-hls1") (SpawnOk 4242) false
                 S1 eq_refl)
      as [(Hp & _)|[(_ & Hc)|(v & _ & [(r & err & Hf)|(_ & Hc)])]].
    - exact Hp.
    - vm_compute in Hc. discriminate.
    - vm_compute in Hf. discriminate.
    - vm_compute in Hc. discriminate. }
  split.
  { assert (E : exec (LStop None) parked_world
                  = Some (world_after [LStop None] parked_world)) by by_compute.
    destruct (H4 (LStop None) parked_world _ 0%nat "" 2%nat 3%nat 20000000000
                 E eq_refl)
      as [Hw|(o & Ho & Hcause)].
    - vm_compute in Hw. discriminate.
    - exists o. split; [exact Ho|].
      destruct o; [vm_compute in Ho; discriminate|apply Hcause|
                   vm_compute in Ho; discriminate]. }
  split.
  { assert (E : exec (LTimeout 0) (world_after [LAdvance playlistTimeout] parked_world)
                  = Some (world_after [LAdvance playlistTimeout; LTimeout 0] parked_world))
      by by_compute.
    destruct (H4 (LTimeout 0) _ _ 0%nat "" 2%nat 3%nat 20000000000 E eq_refl)
      as [Hw|(o & Ho & Hcause)].
    - vm_compute in Hw. discriminate.
    - exists o. split; [exact Ho|].
      destruct o; [vm_compute in Ho; discriminate|vm_compute in Ho; discriminate|
                   apply Hcause]. }
  rewrite (H5 (LStop None) active_world (world_after [LStop None] active_world) 0%nat
              (playlist_response "#EXTM3U rev2")); by_compute.
Defined.

Lemma Stop_removes_directory_named_at_fire_time_witness :
  exists_path "/tmp/go-transcode-hls1/seg0.ts" segment_world = true
  /\ exists w',
       run [LStop None; LAdvance removeDelay; LTimer (length (timers segment_world))]
           segment_world = Some w'
       /\ exists_path "/tmp/go-transcode-hls1" w' = false
       /\ exists_path "/tmp/go-transcode-hls1/seg0.ts" w' = false.
Proof.
  split; [reflexivity|].
  destruct Stop_removes_directory_named_at_fire_time as (H & _).
  assert (Hd : tempdir (m segment_world) <> "") by by_compute.
  destruct (H segment_world
              (mkCmd "/tmp/go-transcode-hls1" LogWriter 0%nat true (Some 4242))
              4242 None eq_refl eq_refl eq_refl Hd) as (w' & Hrun & Hrm).
  exists w'. split; [exact Hrun|]. split; apply Hrm; reflexivity.
Defined.

Lemma ServeMedia_parent_escapes_witness :
  within (tempdir (m media_world)) (media_path (m media_world) "/stream/seg0.ts?x=1") = true
  /\ media_path (m media_world) "/stream/seg0.ts?x=/.." = "/tmp".
Proof.
  destruct ServeMedia_parent_escapes as (_ & H & _ & _ & Hp & _).
  split; [|exact Hp].
  apply H; by_compute.
Defined.
